(** * subfolder_list_fixed.py: listing the immediate subdirectories of a directory

    The program parses three options, makes sure the parent directories of its
    two result files exist, collects the subdirectories of the target, writes
    them sorted to the output file and then creates an empty trigger file.

    The development embeds the script over a model of the services it calls:
    path strings ([posixpath]), a POSIX file system with directories, regular
    files and symbolic links, relative paths, [.] and [..], [os.makedirs],
    [os.listdir], [open]/[write] and [argparse].  Text is modelled as byte
    strings.  Access rights, quotas, devices and other processes acting on
    the file system are not modelled: a call fails only for the reasons path
    resolution gives (a missing or non-directory component, an existing name,
    a directory where a file is expected, too many links). *)

From Stdlib Require Import Ascii String.
From stdpp Require Import base option list sorting gmap strings.

Local Open Scope string_scope.
Local Open Scope list_scope.

(** ** Python strings *)

Module Str.

Definition slash : ascii := "/"%char.

Definition is_slash (c : ascii) : bool := Ascii.eqb c slash.

(** [c * n] *)
Fixpoint mul (c : ascii) (n : nat) : string :=
  match n with
  | O => ""
  | S n' => String c (mul c n')
  end.

(** [s.rstrip('/')] *)
Fixpoint rstrip (s : string) : string :=
  match s with
  | "" => ""
  | String c r =>
      match rstrip r with
      | "" => if is_slash c then "" else String c ""
      | r' => String c r'
      end
  end.

(** [s.startswith('/')] and [s.endswith('/')] *)
Definition starts_with_slash (s : string) : bool :=
  match s with
  | String c _ => is_slash c
  | "" => false
  end.

Fixpoint ends_with_slash (s : string) : bool :=
  match s with
  | "" => false
  | String c "" => is_slash c
  | String _ r => ends_with_slash r
  end.

(** ['/' in s] *)
Fixpoint has_slash (s : string) : bool :=
  match s with
  | "" => false
  | String c r => is_slash c || has_slash r
  end.

(** [(s[:i], s[i:])] for [i = s.rfind('/') + 1] *)
Fixpoint rcut (s : string) : string * string :=
  match s with
  | "" => ("", "")
  | String c r =>
      let '(h, t) := rcut r in
      if has_slash r then (String c h, t)
      else if is_slash c then (String c "", r)
      else ("", String c r)
  end.

(** [s.split('/')] *)
Fixpoint split (s : string) : list string :=
  match s with
  | "" => [""]
  | String c r =>
      if is_slash c then "" :: split r
      else match split r with
           | h :: t => String c h :: t
           | [] => [String c ""]
           end
  end.

(** Truth value of a string: non-empty. *)
Definition truthy (s : string) : bool :=
  match s with "" => false | _ => true end.

(** [a <= b] on [str]: lexicographic on the code units, a proper prefix
    being smaller. *)
Fixpoint leb (a b : string) : bool :=
  match a, b with
  | "", _ => true
  | String _ _, "" => false
  | String x a', String y b' =>
      let nx := nat_of_ascii x in
      let ny := nat_of_ascii y in
      if Nat.ltb nx ny then true
      else if Nat.eqb nx ny then leb a' b'
      else false
  end.

Definition le (a b : string) : Prop := leb a b = true.

#[global] Instance le_dec : RelDecision le := λ a b, decide (leb a b = true).

(** [sep.join(l)] *)
Fixpoint join (sep : string) (l : list string) : string :=
  match l with
  | [] => ""
  | [x] => x
  | x :: r => x +:+ sep +:+ join sep r
  end.

(** [sorted(l)] for a list of strings. *)
Definition sorted (l : list string) : list string := merge_sort le l.

End Str.

(** ** [posixpath] *)

Module posixpath.

(** [posixpath.split(p)] *)
Definition split (p : string) : string * string :=
  let '(head, tail) := Str.rcut p in
  let head :=
    if Str.truthy head && negb (String.eqb head (Str.mul Str.slash (String.length head)))
    then Str.rstrip head else head in
  (head, tail).

(** [posixpath.dirname(p)] *)
Definition dirname (p : string) : string :=
  let '(head, _) := Str.rcut p in
  if Str.truthy head && negb (String.eqb head (Str.mul Str.slash (String.length head)))
  then Str.rstrip head else head.

(** [posixpath.join(a, b)] *)
Definition join (a b : string) : string :=
  if Str.starts_with_slash b then b
  else if negb (Str.truthy a) || Str.ends_with_slash a then a +:+ b
  else a +:+ "/" +:+ b.

End posixpath.

(** ** The file system *)

(** A location is the list of names leading to it from the root. *)
Abbreviation key := (list string).

Inductive node : Type :=
  | File (content : string)
  | Dir
  | Link (target : string).

Inductive errno : Type := ENOENT | ENOTDIR | EEXIST | EISDIR | ELOOP.

#[global] Instance node_eq_dec : EqDecision node.
Proof. solve_decision. Defined.

#[global] Instance errno_eq_dec : EqDecision errno.
Proof. solve_decision. Defined.

(** What the program did to the file system, in order. *)
Inductive event : Type :=
  | EvMkdir (p : string) (k : key)
  | EvListdir (p : string)
  | EvOpen (p : string) (k : key)
  | EvWrite (p : string) (k : key) (data : string)
  | EvClose (p : string) (k : key).

#[global] Instance event_eq_dec : EqDecision event.
Proof. solve_decision. Defined.

Record state : Type := mkState {
  files : gmap key node;
  cwd : key;
  trace : list event
}.

Definition node_at (fs : gmap key node) (k : key) : option node :=
  match k with
  | [] => Some Dir
  | _ => fs !! k
  end.

Definition is_dir_at (fs : gmap key node) (k : key) : bool :=
  match node_at fs k with
  | Some Dir => true
  | _ => false
  end.

Definition enter_errno (fs : gmap key node) (k : key) : errno :=
  match node_at fs k with
  | None => ENOENT
  | _ => ENOTDIR
  end.

Definition parent (k : key) : key := take (length k - 1) k.

Definition is_dot (c : string) : bool := String.eqb c "" || String.eqb c ".".
Definition is_dotdot (c : string) : bool := String.eqb c "..".

Definition SYMLOOP_MAX : nat := 40.

(** Path resolution: [walk fs follow n cur comps] follows the components
    [comps] from the directory [cur], expanding at most [n] symbolic links.
    The last component is looked through only when [follow] is set. *)
Fixpoint walk (fs : gmap key node) (follow : bool) (n : nat)
    : key → list string → errno + key :=
  fix go (cur : key) (comps : list string) {struct comps} : errno + key :=
    match comps with
    | [] => inr cur
    | c :: rest =>
        if negb (is_dir_at fs cur) then inl (enter_errno fs cur)
        else if is_dot c then go cur rest
        else if is_dotdot c then go (parent cur) rest
        else
          let k := cur ++ [c] in
          match fs !! k with
          | Some (Link t) =>
              if bool_decide (rest = []) && negb follow then inr k
              else
                match n with
                | O => inl ELOOP
                | S n' =>
                    if negb (Str.truthy t) then inl ENOENT
                    else walk fs follow n'
                           (if Str.starts_with_slash t then [] else cur)
                           (Str.split t ++ rest)
                end
          | _ => go k rest
          end
    end.

Definition resolve (s : state) (follow : bool) (p : string) : errno + key :=
  if negb (Str.truthy p) then inl ENOENT
  else walk (files s) follow SYMLOOP_MAX
         (if Str.starts_with_slash p then [] else cwd s) (Str.split p).

(** [stat(2)] and [lstat(2)], reduced to the kind of node found. *)
Definition stat_with (follow : bool) (s : state) (p : string) : errno + node :=
  match resolve s follow p with
  | inl e => inl e
  | inr k =>
      match node_at (files s) k with
      | Some nd => inr nd
      | None => inl ENOENT
      end
  end.

Definition stat : state → string → errno + node := stat_with true.
Definition lstat : state → string → errno + node := stat_with false.

(** The names entered in directory [k]. *)
Definition entry_name (k k' : key) : option string :=
  match reverse k' with
  | n :: rp => if decide (reverse rp = k) then Some n else None
  | [] => None
  end.

Definition children (fs : gmap key node) (k : key) : list string :=
  omap (entry_name k) (elements (dom fs)).

(** ** Exceptions and the monad of the script *)

Inductive exn : Type :=
  | OSError (e : errno)
  | RecursionError
  | TypeError
  | SystemExit (code : nat).

#[global] Instance exn_eq_dec : EqDecision exn.
Proof. solve_decision. Defined.

(** The subclasses of [OSError] that CPython raises for these error numbers. *)
Abbreviation FileNotFoundError := (OSError ENOENT).
Abbreviation NotADirectoryError := (OSError ENOTDIR).
Abbreviation FileExistsError := (OSError EEXIST).
Abbreviation IsADirectoryError := (OSError EISDIR).

Inductive outcome (A : Type) : Type :=
  | Ok (a : A) (s : state)
  | Raise (e : exn) (s : state).

Arguments Ok {A} a s.
Arguments Raise {A} e s.

Definition M (A : Type) : Type := state → outcome A.

Definition ret {A} (a : A) : M A := λ s, Ok a s.

Definition raise {A} (e : exn) : M A := λ s, Raise e s.

Definition bind {A B} (m : M A) (f : A → M B) : M B :=
  λ s, match m s with
       | Ok a s' => f a s'
       | Raise e s' => Raise e s'
       end.

Notation "'let!' x ':=' m 'in' k" := (bind m (λ x, k))
  (at level 10, x name, m at level 100, k at level 200).
Notation "m ;;; k" := (bind m (λ _, k))
  (at level 100, right associativity).

(** The state an outcome leaves behind. *)
Definition final {A} (o : outcome A) : state :=
  match o with
  | Ok _ s => s
  | Raise _ s => s
  end.

Definition get {A} (f : state → A) : M A := λ s, Ok (f s) s.

Definition emit (ev : event) : M unit :=
  λ s, Ok tt (mkState (files s) (cwd s) (trace s ++ [ev])).

Definition put_node (k : key) (nd : node) : M unit :=
  λ s, Ok tt (mkState (<[k := nd]> (files s)) (cwd s) (trace s)).

(** ** The services of [os] and the built-ins the script calls *)

(** The order in which [readdir(3)] hands out the entries of a directory is
    unspecified: any rearrangement of the entries. *)
Record enumeration : Type := mkEnum {
  enum :> list string → list string;
  enum_perm : ∀ l, enum l ≡ₚ l
}.

Module os.

(** [os.path.isdir(p)]: [stat] succeeds and finds a directory. *)
Definition isdir (s : state) (p : string) : bool :=
  match stat s p with
  | inr Dir => true
  | _ => false
  end.

(** [os.path.exists(p)]: [stat] succeeds. *)
Definition exists_ (s : state) (p : string) : bool :=
  match stat s p with
  | inr _ => true
  | inl _ => false
  end.

(** [os.mkdir(p)].  Trailing slashes do not take part in the resolution of
    the name to create. *)
Definition mkdir (p : string) : M unit :=
  λ s,
    let p' := match Str.rstrip p with "" => p | q => q end in
    match resolve s false p' with
    | inl e => Raise (OSError e) s
    | inr k =>
        match node_at (files s) k with
        | Some _ => Raise FileExistsError s
        | None => (put_node k Dir ;;; emit (EvMkdir p k)) s
        end
    end.

(** [os.listdir(p)] *)
Definition listdir (order : enumeration) (p : string) : M (list string) :=
  λ s,
    match resolve s true p with
    | inl e => Raise (OSError e) s
    | inr k =>
        match node_at (files s) k with
        | Some Dir => (emit (EvListdir p) ;;; ret (order (children (files s) k))) s
        | Some _ => Raise NotADirectoryError s
        | None => Raise FileNotFoundError s
        end
    end.

(** [os.makedirs(name, exist_ok=True)], as [os.py] defines it; [fuel] is
    the number of nested calls the interpreter still grants. *)
Fixpoint makedirs_rec (fuel : nat) (name : string) : M unit :=
  match fuel with
  | O => raise RecursionError
  | S fuel' =>
      let '(head, tail) := posixpath.split name in
      let '(head, tail) :=
        if negb (Str.truthy tail) then posixpath.split head else (head, tail) in
      let! proceed :=
        (if Str.truthy head && Str.truthy tail then
           let! found := get (λ s, exists_ s head) in
           if negb found then
             (λ s, match makedirs_rec fuel' head s with
                   | Raise FileExistsError s' => Ok tt s'
                   | o => o
                   end) ;;;
             ret (negb (String.eqb tail "."))
           else ret true
         else ret true) in
      if proceed then
        λ s, match mkdir name s with
             | Raise (OSError e) s' =>
                 if negb (isdir s' name) then Raise (OSError e) s' else Ok tt s'
             | o => o
             end
      else ret tt
  end.

(** With the default recursion limit of 1000 and the script run as the main
    module, a call of [os.makedirs] from [main] can nest 996 deep (CPython
    3.11): one level more and [RecursionError] is raised on the way down,
    before any directory is made. *)
Definition recursion_budget : nat := 996.

Definition makedirs (name : string) : M unit :=
  makedirs_rec recursion_budget name.

End os.

(** A file object open for writing: its name and where it is stored. *)
Record file_object : Type := mkFile {
  name : string;
  loc : key
}.

(** [open(p, 'w')]: the file is created, or emptied if it exists. *)
Definition open_w (p : string) : M file_object :=
  λ s,
    match resolve s true p with
    | inl e => Raise (OSError e) s
    | inr k =>
        match node_at (files s) k with
        | Some Dir => Raise IsADirectoryError s
        | Some (Link _) => Raise (OSError ELOOP) s
        | _ => (put_node k (File "") ;;; emit (EvOpen p k) ;;; ret (mkFile p k)) s
        end
    end.

(** [f.write(data)] on a file opened by [open_w] and not written since. *)
Definition write (f : file_object) (data : string) : M unit :=
  put_node (loc f) (File data) ;;; emit (EvWrite (name f) (loc f) data).

Definition close (f : file_object) : M unit := emit (EvClose (name f) (loc f)).

(** [with open(p, 'w') as f: f.write(data)] *)
Definition with_open_w_write (p : string) (data : string) : M unit :=
  let! f := open_w p in
  write f data ;;;
  close f.

(** What a later reader finds in the file named [p]. *)
Definition read_file (s : state) (p : string) : option string :=
  match stat s p with
  | inr (File c) => Some c
  | _ => None
  end.

(** ** The script *)

(** The newline character, ['\n']. *)
Definition nl : string := String (ascii_of_nat 10) "".

Record namespace : Type := mkArgs {
  directory : string;
  out_file : string;
  trigger_file : string
}.

(** The loop over [os.listdir(base_dir)] that fills [subdirs]. *)
Fixpoint collect (base_dir : string) (items : list string) (subdirs : list string)
    : M (list string) :=
  match items with
  | [] => ret subdirs
  | item :: items' =>
      let item_path := posixpath.join base_dir item in
      let! d := get (λ s, os.isdir s item_path) in
      if d then collect base_dir items' (subdirs ++ [posixpath.join base_dir item])
      else collect base_dir items' subdirs
  end.

Definition scan (order : enumeration) (base_dir : string) : M (list string) :=
  let! d := get (λ s, os.isdir s base_dir) in
  if d then
    let! items := os.listdir order base_dir in
    collect base_dir items []
  else ret [].

(** The body of [main] once the arguments are parsed. *)
Definition run (order : enumeration) (args : namespace) : M unit :=
  let base_dir := directory args in
  let out_file := out_file args in
  let trigger_file := trigger_file args in
  os.makedirs (posixpath.dirname out_file) ;;;
  (if Str.truthy trigger_file
   then os.makedirs (posixpath.dirname trigger_file) else ret tt) ;;;
  let! subdirs := scan order base_dir in
  with_open_w_write out_file (Str.join nl (Str.sorted subdirs)) ;;;
  if Str.truthy trigger_file then with_open_w_write trigger_file "" else ret tt.

(** ** [argparse]

    The parser of the script: [-h/--help] and three required options that
    store one string each, read by [parse_known_args] (CPython 3.8 to 3.11). *)

Module argparse.

Inductive dest : Type := Directory | OutFile | TriggerFile.

Inductive action : Type :=
  | HelpAction
  | StoreAction (d : dest).

#[global] Instance dest_eq_dec : EqDecision dest.
Proof. solve_decision. Defined.

#[global] Instance action_eq_dec : EqDecision action.
Proof. solve_decision. Defined.

(** [parser._option_string_actions], in the order of registration. *)
Definition option_string_actions : list (string * action) :=
  [ ("-h", HelpAction); ("--help", HelpAction);
    ("--directory", StoreAction Directory);
    ("--out-file", StoreAction OutFile);
    ("--trigger-file", StoreAction TriggerFile) ].

Fixpoint assoc {A} (k : string) (l : list (string * A)) : option A :=
  match l with
  | [] => None
  | (k', a) :: l' => if String.eqb k k' then Some a else assoc k l'
  end.

Definition dash : ascii := "-"%char.

(** [s.split('=', 1)] when ['=' in s] *)
Fixpoint split_eq (s : string) : option (string * string) :=
  match s with
  | "" => None
  | String c r =>
      if Ascii.eqb c "="%char then Some ("", r)
      else match split_eq r with
           | Some (a, b) => Some (String c a, b)
           | None => None
           end
  end.

Fixpoint has_space (s : string) : bool :=
  match s with
  | "" => false
  | String c r => Ascii.eqb c " "%char || has_space r
  end.

Definition is_digit (c : ascii) : bool :=
  let n := nat_of_ascii c in Nat.leb 48 n && Nat.leb n 57.

Fixpoint skip_digits (s : string) : nat * string :=
  match s with
  | String c r =>
      if is_digit c then let '(n, r') := skip_digits r in (S n, r') else (O, s)
  | "" => (O, "")
  end.

Definition at_end (s : string) : bool :=
  String.eqb s "" || String.eqb s (String (ascii_of_nat 10) "").

(** [_negative_number_matcher]: ['^-\d+$|^-\d*\.\d+$'] *)
Definition negative_number (s : string) : bool :=
  match s with
  | String c r =>
      Ascii.eqb c dash &&
      let '(n1, r1) := skip_digits r in
      (Nat.leb 1 n1 && at_end r1) ||
      match r1 with
      | String d r2 =>
          Ascii.eqb d "."%char &&
          let '(n2, r3) := skip_digits r2 in Nat.leb 1 n2 && at_end r3
      | "" => false
      end
  | "" => false
  end.

Definition nth_is_dash (n : nat) (s : string) : bool :=
  match String.get n s with
  | Some c => Ascii.eqb c dash
  | None => false
  end.

(** [_get_option_tuples] *)
Definition get_option_tuples (option_string : string)
    : list (action * string * option string) :=
  if nth_is_dash 0 option_string && nth_is_dash 1 option_string then
    let '(option_prefix, explicit_arg) :=
      match split_eq option_string with
      | Some (p, e) => (p, Some e)
      | None => (option_string, None)
      end in
    omap (λ '(o, a), if String.prefix option_prefix o
                     then Some (a, o, explicit_arg) else None)
         option_string_actions
  else
    let option_prefix := option_string in
    let short_option_prefix := String.substring 0 2 option_string in
    let short_explicit_arg :=
      String.substring 2 (String.length option_string - 2) option_string in
    omap (λ '(o, a),
            if String.eqb o short_option_prefix then Some (a, o, Some short_explicit_arg)
            else if String.prefix option_prefix o then Some (a, o, None)
            else None)
         option_string_actions.

(** The result of [_parse_optional]: [None], an option tuple, or the error
    raised for an ambiguous abbreviation. *)
Inductive optional : Type :=
  | NotOptional
  | OptionTuple (a : option action) (option_string : string) (explicit_arg : option string)
  | AmbiguousOption.

Definition parse_optional (arg_string : string) : optional :=
  if negb (Str.truthy arg_string) then NotOptional
  else if negb (nth_is_dash 0 arg_string) then NotOptional
  else
    match assoc arg_string option_string_actions with
    | Some a => OptionTuple (Some a) arg_string None
    | None =>
        if Nat.eqb (String.length arg_string) 1 then NotOptional
        else
          let exact :=
            match split_eq arg_string with
            | Some (o, e) =>
                match assoc o option_string_actions with
                | Some a => Some (OptionTuple (Some a) o (Some e))
                | None => None
                end
            | None => None
            end in
          match exact with
          | Some r => r
          | None =>
              match get_option_tuples arg_string with
              | _ :: _ :: _ => AmbiguousOption
              | [(a, o, e)] => OptionTuple (Some a) o e
              | [] =>
                  if negative_number arg_string then NotOptional
                  else if has_space arg_string then NotOptional
                  else OptionTuple None arg_string None
              end
          end
    end.

(** The letters of [arg_strings_pattern], with the option tuple for ['O']. *)
Inductive pattern : Type :=
  | PatA
  | PatDashDash
  | PatO (a : option action) (option_string : string) (explicit_arg : option string).

(** First pass: every argument string is classified; all that follows the
    first [--] is an argument. *)
Fixpoint classify (after_marker : bool) (arg_strings : list string)
    : exn + list (string * pattern) :=
  match arg_strings with
  | [] => inr []
  | arg_string :: rest =>
      if after_marker then
        match classify true rest with
        | inr l => inr ((arg_string, PatA) :: l)
        | inl e => inl e
        end
      else if String.eqb arg_string "--" then
        match classify true rest with
        | inr l => inr ((arg_string, PatDashDash) :: l)
        | inl e => inl e
        end
      else
        match parse_optional arg_string with
        | AmbiguousOption => inl (SystemExit 2)
        | NotOptional =>
            match classify false rest with
            | inr l => inr ((arg_string, PatA) :: l)
            | inl e => inl e
            end
        | OptionTuple a o e =>
            match classify false rest with
            | inr l => inr ((arg_string, PatO a o e) :: l)
            | inl e' => inl e'
            end
        end
  end.

(** What an option stores: a string or, when its only argument string is
    [--], the empty list. *)
Inductive value : Type :=
  | Text (s : string)
  | EmptyList.

(** [_get_values] for an option that takes one argument string: a [--]
    among the argument strings is dropped; one string left is the value,
    none left gives the empty list. *)
Definition get_values (arg_string : string) : value :=
  if String.eqb arg_string "--" then EmptyList else Text arg_string.

(** The attributes set so far on the namespace. *)
Record partial : Type := mkPartial {
  p_directory : option value;
  p_out_file : option value;
  p_trigger_file : option value
}.

Definition store (d : dest) (v : value) (ns : partial) : partial :=
  match d with
  | Directory => mkPartial (Some v) (p_out_file ns) (p_trigger_file ns)
  | OutFile => mkPartial (p_directory ns) (Some v) (p_trigger_file ns)
  | TriggerFile => mkPartial (p_directory ns) (p_out_file ns) (Some v)
  end.

(** [-h] glued to further letters: every letter has to be an option of
    its own, that is [h] again. *)
Fixpoint help_chain (explicit_arg : string) : bool :=
  match explicit_arg with
  | "" => true
  | String c r => Ascii.eqb c "h"%char && help_chain r
  end.

(** Where [consume_optional] stands between two argument strings. *)
Inductive cursor : Type :=
  | Idle
  | Await (d : dest)
  | Stopped (e : exn).

Record scanner : Type := mkScanner {
  sc_cursor : cursor;
  sc_namespace : partial;
  sc_extras : list string
}.

Definition stop (e : exn) (sc : scanner) : scanner :=
  mkScanner (Stopped e) (sc_namespace sc) (sc_extras sc).

Definition extra (arg_string : string) (sc : scanner) : scanner :=
  mkScanner Idle (sc_namespace sc) (sc_extras sc ++ [arg_string]).

(** Second pass, one argument string at a time. *)
Definition consume (sc : scanner) (tok : string * pattern) : scanner :=
  let '(arg_string, pat) := tok in
  match sc_cursor sc with
  | Stopped _ => sc
  | Await d =>
      match pat with
      | PatA =>
          mkScanner Idle (store d (get_values arg_string) (sc_namespace sc))
                    (sc_extras sc)
      | _ => stop (SystemExit 2) sc
      end
  | Idle =>
      match pat with
      | PatA | PatDashDash => extra arg_string sc
      | PatO None _ _ => extra arg_string sc
      | PatO (Some HelpAction) o None => stop (SystemExit 0) sc
      | PatO (Some HelpAction) o (Some e) =>
          if nth_is_dash 1 o then stop (SystemExit 2) sc
          else if negb (Str.truthy e) then stop (SystemExit 2) sc
          else if help_chain e then stop (SystemExit 0) sc
          else stop (SystemExit 2) sc
      | PatO (Some (StoreAction d)) _ (Some e) =>
          mkScanner Idle (store d (get_values e) (sc_namespace sc)) (sc_extras sc)
      | PatO (Some (StoreAction d)) _ None =>
          mkScanner (Await d) (sc_namespace sc) (sc_extras sc)
      end
  end.

(** How parsing ends: with a namespace whose attributes are all strings,
    with attributes of which one at least is the empty list, or with the
    end of the program. *)
Inductive parsed : Type :=
  | Parsed (args : namespace) (remaining_args : list string)
  | ParsedValues (directory out_file trigger_file : value)
                 (remaining_args : list string)
  | Exits (e : exn).

(** [parser.parse_known_args(argv)] *)
Definition parse_known_args (argv : list string) : parsed :=
  match classify false argv with
  | inl e => Exits e
  | inr toks =>
      let sc := foldl consume (mkScanner Idle (mkPartial None None None) []) toks in
      match sc_cursor sc with
      | Stopped e => Exits e
      | Await _ => Exits (SystemExit 2)
      | Idle =>
          match sc_namespace sc with
          | mkPartial (Some (Text d)) (Some (Text o)) (Some (Text t)) =>
              Parsed (mkArgs d o t) (sc_extras sc)
          | mkPartial (Some d) (Some o) (Some t) => ParsedValues d o t (sc_extras sc)
          | _ => Exits (SystemExit 2)
          end
      end
  end.

End argparse.

(** The body of [main] on attributes that need not be strings.  For a list
    [os.path.dirname] and [os.path.isdir] raise [TypeError]; the empty list
    is false, so it counts as no trigger path. *)
Definition run_values (order : enumeration)
    (base_dir out_file trigger_file : argparse.value) : M unit :=
  match out_file with
  | argparse.EmptyList => raise TypeError
  | argparse.Text out_file =>
      let trigger_file :=
        match trigger_file with
        | argparse.Text t => t
        | argparse.EmptyList => ""
        end in
      os.makedirs (posixpath.dirname out_file) ;;;
      (if Str.truthy trigger_file
       then os.makedirs (posixpath.dirname trigger_file) else ret tt) ;;;
      match base_dir with
      | argparse.EmptyList => raise TypeError
      | argparse.Text base_dir =>
          let! subdirs := scan order base_dir in
          with_open_w_write out_file (Str.join nl (Str.sorted subdirs)) ;;;
          if Str.truthy trigger_file then with_open_w_write trigger_file "" else ret tt
      end
  end.

(** [main()], started with [sys.argv[1:] = argv]. *)
Definition main (order : enumeration) (argv : list string) : M unit :=
  match argparse.parse_known_args argv with
  | argparse.Parsed args remaining_args => run order args
  | argparse.ParsedValues base_dir out_file trigger_file remaining_args =>
      run_values order base_dir out_file trigger_file
  | argparse.Exits e => raise e
  end.

(** ** Specification-level views of a run *)

(** The state after one more event has been recorded. *)
Definition log (ev : event) (s : state) : state :=
  mkState (files s) (cwd s) (trace s ++ [ev]).

(** The paths the script retains for a target directory, in the order of
    enumeration. *)
Definition retained (order : enumeration) (s : state) (base_dir : string)
    : list string :=
  if os.isdir s base_dir then
    match resolve s true base_dir with
    | inr k =>
        posixpath.join base_dir <$>
          filter (λ item, os.isdir s (posixpath.join base_dir item) = true)
                 (order (children (files s) k))
    | inl _ => []
    end
  else [].

(** [routes fs fs']: every directory and every symbolic link of [fs] is in
    [fs'], and [fs'] has no link where [fs] has none; so whatever path
    resolves in [fs] resolves the same way in [fs']. *)
Definition routes (fs fs' : gmap key node) : Prop :=
  ∀ k, match fs !! k with
       | Some Dir => fs' !! k = Some Dir
       | Some (Link t) => fs' !! k = Some (Link t)
       | _ => ∀ t, fs' !! k ≠ Some (Link t)
       end.

(** [keeps fs fs']: going from [fs] to [fs'], directories stay directories,
    regular files stay regular files, symbolic links stay what they are and
    no new link appears. *)
Definition keeps (fs fs' : gmap key node) : Prop :=
  ∀ k, match fs !! k with
       | Some Dir => fs' !! k = Some Dir
       | Some (Link t) => fs' !! k = Some (Link t)
       | Some (File _) => ∃ c, fs' !! k = Some (File c)
       | None => ∀ t, fs' !! k ≠ Some (Link t)
       end.

(** The effect of a recorded event on the stored nodes. *)
Definition apply_event (fs : gmap key node) (ev : event) : gmap key node :=
  match ev with
  | EvMkdir _ k => <[k := Dir]> fs
  | EvOpen _ k => <[k := File ""]> fs
  | EvWrite _ k data => <[k := File data]> fs
  | EvListdir _ | EvClose _ _ => fs
  end.

Definition replay (evs : list event) (fs : gmap key node) : gmap key node :=
  foldl apply_event fs evs.

(** The locations an event stores to. *)
Definition touches (ev : event) (k : key) : Prop :=
  match ev with
  | EvMkdir _ k' | EvOpen _ k' | EvWrite _ k' _ => k' = k
  | EvListdir _ | EvClose _ _ => False
  end.

(** [evolves s s' evs]: [s'] is [s] after the events [evs], and nothing else
    happened. *)
Definition evolves (s s' : state) (evs : list event) : Prop :=
  trace s' = trace s ++ evs ∧
  cwd s' = cwd s ∧
  files s' = replay evs (files s) ∧
  keeps (files s) (files s').

(** An event of [os.makedirs(name)]: a directory made at a leading part of
    [name]. *)
Definition mkdir_under (name : string) (ev : event) : Prop :=
  ∃ p k, ev = EvMkdir p k ∧ String.prefix p name = true.

(** [open(p, 'w')] can store at [k]: [p] leads to [k], where there is a
    regular file or, in an existing directory, nothing yet. *)
Definition writable (s : state) (p : string) (k : key) : Prop :=
  resolve s true p = inr k ∧
  (node_at (files s) k = None ∨ ∃ c, node_at (files s) k = Some (File c)).

(** The state after [with open(p, 'w') as f: f.write(data)] stored at [k]. *)
Definition written (p data : string) (k : key) (s : state) : state :=
  mkState (<[k := File data]> (files s)) (cwd s)
          (trace s ++ [EvOpen p k; EvWrite p k data; EvClose p k]).

(** The state the scan of the target leaves. *)
Definition scanned (base_dir : string) (s : state) : state :=
  if os.isdir s base_dir then log (EvListdir base_dir) s else s.

(** The text written to the output file. *)
Definition rendering (subdirs : list string) : string :=
  Str.join nl (Str.sorted subdirs).

(** The two phases of [run] around the scan: making the parent directories,
    and writing the listing and the trigger. *)
Definition prepare (args : namespace) : M unit :=
  os.makedirs (posixpath.dirname (out_file args)) ;;;
  if Str.truthy (trigger_file args)
  then os.makedirs (posixpath.dirname (trigger_file args)) else ret tt.

Definition deliver (args : namespace) (subdirs : list string) : M unit :=
  with_open_w_write (out_file args) (rendering subdirs) ;;;
  if Str.truthy (trigger_file args)
  then with_open_w_write (trigger_file args) "" else ret tt.

(** The paths retained by a run started in [s]: the target is examined once
    the parent directories have been made. *)
Definition subdirs_of (order : enumeration) (args : namespace) (s : state)
    : list string :=
  retained order (final (prepare args s)) (directory args).

(** The events of [with open(p, 'w') as f: f.write(data)] storing at [k]. *)
Definition file_events (p data : string) (k : key) : list event :=
  [EvOpen p k; EvWrite p k data; EvClose p k].


(** A leading part of the parent path of the output file or, when a trigger
    path is given, of the trigger file. *)
Definition on_parent_path (args : namespace) (p : string) : Prop :=
  String.prefix p (posixpath.dirname (out_file args)) = true ∨
  (Str.truthy (trigger_file args) = true ∧
   String.prefix p (posixpath.dirname (trigger_file args)) = true).


(** Names a directory entry can bear. *)
Definition valid_name (n : string) : bool :=
  Str.truthy n && negb (Str.has_slash n) && negb (is_dot n) && negb (is_dotdot n).

Definition names_valid (fs : gmap key node) : Prop :=
  ∀ k, is_Some (fs !! k) → Forall (λ n, valid_name n = true) k.

(** ** Arguments the parser does not know *)

(** An argument string that [parse_known_args] hands back in
    [remaining_args] wherever it stands, unless it directly follows an option
    waiting for its value: it is not [--], and it is read as a positional
    argument or as an option unknown to the parser. *)
Definition unrecognized (arg_string : string) : bool :=
  negb (String.eqb arg_string "--") &&
  match argparse.parse_optional arg_string with
  | argparse.NotOptional => true
  | argparse.OptionTuple None _ _ => true
  | _ => false
  end.

Definition scanner_init : argparse.scanner :=
  argparse.mkScanner argparse.Idle (argparse.mkPartial None None None) [].

(** After the argument strings [pre], an option is still waiting for its
    value. *)
Definition awaits_value (pre : list string) : bool :=
  match argparse.classify false pre with
  | inr toks =>
      match argparse.sc_cursor (foldl argparse.consume scanner_init toks) with
      | argparse.Await _ => true
      | _ => false
      end
  | inl _ => false
  end.

Definition sample_argv : list string :=
  ["--directory"; "/d"; "--out-file"; "/out/list.txt"; "--trigger-file"; "/out/done"].

(** Whether the first [--] has been passed once [l] is read. *)
Definition marked (b : bool) (l : list string) : bool :=
  b || existsb (λ t, String.eqb t "--") l.

(** The patterns of unrecognized argument strings. *)
Definition passive (tok : string * argparse.pattern) : Prop :=
  match tok.2 with
  | argparse.PatA | argparse.PatO None _ _ => True
  | _ => False
  end.

(** Two scanners that differ in the strings set aside only. *)
Definition alike (sc sc' : argparse.scanner) : Prop :=
  argparse.sc_cursor sc = argparse.sc_cursor sc' ∧
  argparse.sc_namespace sc = argparse.sc_namespace sc'.

(** A name [os.mkdir] resolves as it stands: it has no trailing slash, or
    is made of slashes only. *)
Definition stable (name : string) : Prop :=
  match Str.rstrip name with
  | "" => name
  | q => q
  end = name.


(** ** Further views of the script *)

(** What [posixpath.join] puts between [base_dir] and the name of an entry. *)
Definition join_sep (base_dir : string) : string :=
  if Str.ends_with_slash base_dir then "" else "/".

(** The entries of the directory at [k] whose joined path is a directory. *)
Definition subdir_entries (s : state) (base_dir : string) (k : key) : list string :=
  filter (λ item, os.isdir s (posixpath.join base_dir item) = true)
         (children (files s) k).




(** The shortest spelling under which the parser accepts the option that
    stores [d]. *)
Definition shortest_flag (d : argparse.dest) : string :=
  match d with
  | argparse.Directory => "--d"
  | argparse.OutFile => "--o"
  | argparse.TriggerFile => "--t"
  end.

Definition stored (d : argparse.dest) (ns : argparse.partial)
    : option argparse.value :=
  match d with
  | argparse.Directory => argparse.p_directory ns
  | argparse.OutFile => argparse.p_out_file ns
  | argparse.TriggerFile => argparse.p_trigger_file ns
  end.

(** Every stored node hangs in a directory. *)
Definition tree (fs : gmap key node) : Prop :=
  ∀ k, is_Some (fs !! k) → is_dir_at fs (parent k) = true.

(** A well-formed state: names are entry names, nodes hang in directories,
    and the working directory is a location. *)
Definition well_formed (s : state) : Prop :=
  names_valid (files s) ∧
  tree (files s) ∧
  Forall (λ n, valid_name n = true) (cwd s).

(** The option string registered for [d]. *)
Definition option_string (d : argparse.dest) : string :=
  match d with
  | argparse.Directory => "--directory"
  | argparse.OutFile => "--out-file"
  | argparse.TriggerFile => "--trigger-file"
  end.

(** The pattern of an argument string that stores a value for [d], or makes
    the next argument string its value. *)
Definition stores (d : argparse.dest) (pat : argparse.pattern) : Prop :=
  match pat with
  | argparse.PatO (Some (argparse.StoreAction d')) _ _ => d' = d
  | _ => False
  end.

(** No value was stored for [d] and none is awaited. *)
Definition unset (d : argparse.dest) (sc : argparse.scanner) : Prop :=
  stored d (argparse.sc_namespace sc) = None ∧
  argparse.sc_cursor sc ≠ argparse.Await d.

(** The value the namespace holds for [d]. *)
Definition value_of (args : namespace) (d : argparse.dest) : string :=
  match d with
  | argparse.Directory => directory args
  | argparse.OutFile => out_file args
  | argparse.TriggerFile => trigger_file args
  end.

(** The beginnings of a string, from the empty one to the string itself. *)
Fixpoint prefixes (s : string) : list string :=
  "" :: match s with
        | "" => []
        | String c r => String c <$> prefixes r
        end.

(** [flag d] spells the option of [d] in full or abbreviates it, no further
    than the parser accepts. *)
Definition spelling (flag : argparse.dest → string) : Prop :=
  ∀ d, String.prefix (shortest_flag d) (flag d) = true ∧
       String.prefix (flag d) (option_string d) = true.

(** A command line that gives the options in the order [ds], spelled as
    [flag] has them, each one followed by its value as the next argument
    string. *)
Definition spaced (flag : argparse.dest → string) (args : namespace)
    (ds : list argparse.dest) : list string :=
  ds ≫= λ d, [flag d; value_of args d].


(** The attributes set when the options are met in the order [ds]. *)
Definition stored_in_order (args : namespace) (ds : list argparse.dest)
    (ns : argparse.partial) : argparse.partial :=
  foldl (λ ns d, argparse.store d (argparse.Text (value_of args d)) ns) ns ds.




(** The target with an output path that leads into it. *)
Definition inward_args : namespace := mkArgs "/d" "/d/new/list.txt" "/out/done".

(** ** Sample inputs *)

(** Entries are handed out as stored, or in the opposite order. *)
Definition stored_order : enumeration := mkEnum (λ l, l) (λ l, reflexivity l).

(** A target [/d] with three directories, two regular files, a nested
    directory, a link to a file, a link to a directory and a dangling link;
    the process runs in [/home]. *)
Definition sample_files : gmap key node :=
  list_to_map
    [ (["d"], Dir); (["d"; "a"], Dir); (["d"; "c"], Dir); (["d"; "b"], Dir);
      (["d"; "x"], File "hello"); (["d"; "y"], File "");
      (["d"; "a"; "deep"], Dir);
      (["d"; "lf"], Link "x"); (["d"; "ld"], Link "/d/a/deep");
      (["d"; "dang"], Link "nowhere");
      (["home"], Dir); (["out"], Dir); (["out"; "old"], File "stale") ].

Definition sample_state : state := mkState sample_files ["home"] [].

Definition sample_args : namespace :=
  mkArgs "/d" "/out/sub/list.txt" "/out/trig/done".

(** The same path given for the output and for the trigger. *)
Definition clash_args : namespace := mkArgs "/d" "/out/list.txt" "/out/list.txt".

(** Plain paths for the two result files, both in [/out]. *)
Definition plain_args : namespace := mkArgs "/d" "/out/list.txt" "/out/done".

(** The sample file system with a symbolic link at the trigger path of
    [plain_args] that leads to its output file. *)
Definition linked_state : state :=
  mkState (<[["out"; "done"] := Link "list.txt"]> sample_files) ["home"] [].

(** * Properties *)

(** ** The order on strings and [sorted] *)

Section StrOrder.

Lemma leb_refl a : Str.leb a a = true.
Proof.
  induction a as [|x a IH]; simpl; [done|].
  rewrite Nat.ltb_irrefl, Nat.eqb_refl. exact IH.
Qed.

Lemma leb_total a b : Str.leb a b = true ∨ Str.leb b a = true.
Proof.
  revert b. induction a as [|x a IH]; intros [|y b]; simpl; auto.
  destruct (Nat.ltb_spec (nat_of_ascii x) (nat_of_ascii y)) as [?|Hge]; [auto|].
  destruct (Nat.ltb_spec (nat_of_ascii y) (nat_of_ascii x)) as [?|Hge']; [auto|].
  assert (nat_of_ascii x = nat_of_ascii y) as -> by lia.
  rewrite Nat.eqb_refl. apply IH.
Qed.

Lemma leb_trans a b c :
  Str.leb a b = true → Str.leb b c = true → Str.leb a c = true.
Proof.
  revert b c. induction a as [|x a IH]; intros [|y b] [|z c]; simpl; try done.
  destruct (Nat.ltb_spec (nat_of_ascii x) (nat_of_ascii y)) as [Hxy|Hxy];
  destruct (Nat.ltb_spec (nat_of_ascii y) (nat_of_ascii z)) as [Hyz|Hyz];
  destruct (Nat.ltb_spec (nat_of_ascii x) (nat_of_ascii z)) as [Hxz|Hxz];
  try done; try lia;
  destruct (Nat.eqb_spec (nat_of_ascii x) (nat_of_ascii y));
  destruct (Nat.eqb_spec (nat_of_ascii y) (nat_of_ascii z));
  destruct (Nat.eqb_spec (nat_of_ascii x) (nat_of_ascii z));
  try done; try lia.
  apply IH.
Qed.

Lemma leb_antisym a b :
  Str.leb a b = true → Str.leb b a = true → a = b.
Proof.
  revert b. induction a as [|x a IH]; intros [|y b]; simpl; try done.
  destruct (Nat.ltb_spec (nat_of_ascii x) (nat_of_ascii y)) as [Hxy|Hxy];
  destruct (Nat.ltb_spec (nat_of_ascii y) (nat_of_ascii x)) as [Hyx|Hyx];
  try lia;
  destruct (Nat.eqb_spec (nat_of_ascii x) (nat_of_ascii y)) as [He|He];
  destruct (Nat.eqb_spec (nat_of_ascii y) (nat_of_ascii x)) as [He'|He'];
  try done; try lia.
  intros H1 H2. f_equal; [|by apply IH].
  rewrite <- (ascii_nat_embedding x), <- (ascii_nat_embedding y). by f_equal.
Qed.

#[global] Instance str_le_total : Total Str.le.
Proof. intros a b. apply leb_total. Qed.

#[global] Instance str_le_trans : Transitive Str.le.
Proof. intros a b c. apply leb_trans. Qed.

#[global] Instance str_le_antisymm : AntiSymm (=) Str.le.
Proof. intros a b. apply leb_antisym. Qed.

#[global] Instance str_le_refl : Reflexive Str.le.
Proof. intros a. apply leb_refl. Qed.

Lemma sorted_Sorted l : Sorted Str.le (Str.sorted l).
Proof. apply Sorted_merge_sort, _. Qed.

Lemma sorted_Permutation l : Str.sorted l ≡ₚ l.
Proof. apply merge_sort_Permutation. Qed.

(** Any sorted rearrangement of [l] is [sorted l]: the outcome does not
    depend on the sorting algorithm. *)
Lemma sorted_unique l l' :
  Sorted Str.le l' → l' ≡ₚ l → l' = Str.sorted l.
Proof.
  intros Hs Hp. apply (Sorted_unique Str.le); [done|apply sorted_Sorted|].
  by rewrite sorted_Permutation.
Qed.


End StrOrder.

(** ** Strings and paths *)

Section Paths.


Lemma app_cons c a b : String c a +:+ b = String c (a +:+ b).
Proof. reflexivity. Qed.

Lemma app_empty_r a : a +:+ "" = a.
Proof. induction a as [|c a IH]; [done|]. by rewrite app_cons, IH. Qed.

Lemma app_assoc_str a b c : (a +:+ b) +:+ c = a +:+ b +:+ c.
Proof. induction a as [|x a IH]; [done|]. by rewrite !app_cons, IH. Qed.

Lemma concat_cons a r : String.concat "" (a :: r) = a +:+ String.concat "" r.
Proof. destruct r; simpl; [by rewrite app_empty_r|done]. Qed.

Lemma join_cons sep y l :
  l ≠ [] → Str.join sep (y :: l) = y +:+ sep +:+ Str.join sep l.
Proof. by destruct l. Qed.

(** Every path but the last is followed by the separator, the last by
    nothing. *)
Lemma join_snoc sep l x :
  Str.join sep (l ++ [x]) = String.concat "" ((λ p, p +:+ sep) <$> l) +:+ x.
Proof.
  induction l as [|y l IH]; [done|].
  change ((y :: l) ++ [x]) with (y :: (l ++ [x])).
  rewrite join_cons by (by destruct l).
  rewrite IH, fmap_cons, concat_cons. by rewrite !app_assoc_str.
Qed.

Lemma prefix_refl a : String.prefix a a = true.
Proof. induction a as [|c a IH]; simpl; [done|]. by destruct (ascii_dec c c). Qed.

Lemma prefix_app a b : String.prefix a (a +:+ b) = true.
Proof.
  induction a as [|c a IH]; simpl; [by destruct b|]. by destruct (ascii_dec c c).
Qed.

Lemma prefix_trans a b c :
  String.prefix a b = true → String.prefix b c = true → String.prefix a c = true.
Proof.
  revert b c. induction a as [|x a IH]; intros [|y b] [|z c]; simpl; try done.
  destruct (ascii_dec x y) as [->|]; [|done].
  destruct (ascii_dec y z) as [->|]; [|done]. apply IH.
Qed.

Lemma prefix_nil a : String.prefix "" a = true.
Proof. by destruct a. Qed.

Lemma rcut_app s : (Str.rcut s).1 +:+ (Str.rcut s).2 = s.
Proof.
  induction s as [|c s IH]; simpl; [done|].
  destruct (Str.rcut s) as [h t]. simpl in *.
  destruct (Str.has_slash s); simpl; [by rewrite <- IH|].
  destruct (Str.is_slash c); reflexivity.
Qed.

Lemma rstrip_prefix h : String.prefix (Str.rstrip h) h = true.
Proof.
  induction h as [|c h IH]; simpl; [done|].
  destruct (Str.rstrip h) as [|c' r] eqn:E.
  - destruct (Str.is_slash c); simpl; [done|].
    destruct (ascii_dec c c); [apply prefix_nil|done].
  - simpl. by destruct (ascii_dec c c).
Qed.

Lemma split_fst_dirname p : (posixpath.split p).1 = posixpath.dirname p.
Proof. unfold posixpath.split, posixpath.dirname. by destruct (Str.rcut p). Qed.

Lemma split_head_prefix name :
  String.prefix (posixpath.split name).1 name = true.
Proof.
  unfold posixpath.split. pose proof (rcut_app name) as Hn.
  destruct (Str.rcut name) as [h t]. simpl in *.
  assert (String.prefix h name = true) as Hh by (rewrite <- Hn; apply prefix_app).
  destruct (_ && _); [|done].
  eapply prefix_trans; [apply rstrip_prefix|done].
Qed.

Lemma dirname_prefix p : String.prefix (posixpath.dirname p) p = true.
Proof. rewrite <- split_fst_dirname. apply split_head_prefix. Qed.

End Paths.


(** ** The scan of the target directory *)

Section Scan.

Lemma resolve_log ev s follow p : resolve (log ev s) follow p = resolve s follow p.
Proof. done. Qed.

Lemma isdir_log ev s p : os.isdir (log ev s) p = os.isdir s p.
Proof. done. Qed.

Lemma isdir_resolve s p :
  os.isdir s p = true →
  ∃ k, resolve s true p = inr k ∧ node_at (files s) k = Some Dir.
Proof.
  unfold os.isdir, stat, stat_with. intros H.
  destruct (resolve s true p) as [e|k]; [done|].
  exists k. split; [done|].
  destruct (node_at (files s) k) as [[]|]; done.
Qed.

Lemma collect_eq base items acc s :
  collect base items acc s =
    Ok (acc ++ (posixpath.join base <$>
                  filter (λ item, os.isdir s (posixpath.join base item) = true) items)) s.
Proof.
  revert acc. induction items as [|item items IH]; intros acc; simpl.
  - by rewrite app_nil_r.
  - unfold bind, get. rewrite filter_cons.
    destruct (os.isdir s (posixpath.join base item)) eqn:Hd.
    + rewrite IH. rewrite decide_True by done. simpl. by rewrite <- app_assoc.
    + rewrite IH. by rewrite decide_False by done.
Qed.

Lemma scan_eq order base s :
  scan order base s =
    Ok (retained order s base)
       (if os.isdir s base then log (EvListdir base) s else s).
Proof.
  unfold scan, retained, bind, get.
  destruct (os.isdir s base) eqn:Hd; [|done].
  destruct (isdir_resolve _ _ Hd) as (k & Hk & Hn).
  unfold os.listdir. rewrite Hk, Hn. unfold bind, emit, ret.
  rewrite collect_eq. simpl. done.
Qed.

End Scan.

(** ** Path resolution *)

Section Walk.

#[local] Arguments walk : simpl never.

Lemma walk_nil fs f n cur : walk fs f n cur [] = inr cur.
Proof. by destruct n. Qed.

Lemma walk_cons fs f n cur c rest :
  walk fs f n cur (c :: rest) =
    if negb (is_dir_at fs cur) then inl (enter_errno fs cur)
    else if is_dot c then walk fs f n cur rest
    else if is_dotdot c then walk fs f n (parent cur) rest
    else
      match fs !! (cur ++ [c]) with
      | Some (Link t) =>
          if bool_decide (rest = []) && negb f then inr (cur ++ [c])
          else
            match n with
            | O => inl ELOOP
            | S n' =>
                if negb (Str.truthy t) then inl ENOENT
                else walk fs f n'
                       (if Str.starts_with_slash t then [] else cur)
                       (Str.split t ++ rest)
            end
      | _ => walk fs f n (cur ++ [c]) rest
      end.
Proof. by destruct n. Qed.

Lemma keeps_refl fs : keeps fs fs.
Proof. intros k. destruct (fs !! k) as [[]|] eqn:E; eauto. Qed.

Lemma keeps_trans fs1 fs2 fs3 : keeps fs1 fs2 → keeps fs2 fs3 → keeps fs1 fs3.
Proof.
  intros H12 H23 k. specialize (H12 k). specialize (H23 k).
  destruct (fs1 !! k) as [[]|].
  - destruct H12 as [c H12]. by rewrite H12 in H23.
  - by rewrite H12 in H23.
  - by rewrite H12 in H23.
  - destruct (fs2 !! k) as [[]|]; try done.
    + destruct H23 as [c ->]. done.
    + rewrite H23. done.
    + by exfalso; eapply H12.
Qed.

Lemma keeps_insert_dir fs k : fs !! k = None → keeps fs (<[k := Dir]> fs).
Proof.
  intros Hk k'. destruct (decide (k = k')) as [->|Hne].
  - rewrite Hk, lookup_insert_eq. done.
  - rewrite lookup_insert_ne by done. apply keeps_refl.
Qed.

Lemma keeps_insert_file fs k c :
  (∀ nd, fs !! k = Some nd → ∃ c0, nd = File c0) → keeps fs (<[k := File c]> fs).
Proof.
  intros Hk k'. destruct (decide (k = k')) as [->|Hne].
  - rewrite lookup_insert_eq. destruct (fs !! k') as [nd|] eqn:E; [|done].
    destruct (Hk nd eq_refl) as [c0 ->]. eauto.
  - rewrite lookup_insert_ne by done. apply keeps_refl.
Qed.

Lemma keeps_routes fs fs' : keeps fs fs' → routes fs fs'.
Proof.
  intros H k. specialize (H k). destruct (fs !! k) as [[]|]; try done.
  destruct H as [c ->]. done.
Qed.

Lemma routes_is_dir fs fs' k :
  routes fs fs' → is_dir_at fs k = true → is_dir_at fs' k = true.
Proof.
  intros H. unfold is_dir_at, node_at. destruct k as [|c k]; [done|].
  specialize (H (c :: k)). destruct (fs !! (c :: k)) as [[]|]; simpl; try done.
  intros _. by rewrite H.
Qed.

Lemma routes_node_dir fs fs' k :
  routes fs fs' → node_at fs k = Some Dir → node_at fs' k = Some Dir.
Proof.
  intros H. unfold node_at. destruct k as [|c k]; [done|].
  specialize (H (c :: k)). intros E. by rewrite E in H.
Qed.

Lemma keeps_node_dir fs fs' k :
  keeps fs fs' → node_at fs k = Some Dir → node_at fs' k = Some Dir.
Proof. intros H. by apply routes_node_dir, keeps_routes. Qed.

(** A resolution that succeeds is not disturbed by what [routes] allows. *)
Lemma walk_routes fs fs' f n cur comps k :
  routes fs fs' →
  walk fs f n cur comps = inr k → walk fs' f n cur comps = inr k.
Proof.
  intros Hk. revert cur comps.
  induction n as [|n IHn]; intros cur comps; revert cur;
    (induction comps as [|c rest IHc]; intros cur; [by rewrite !walk_nil|]);
    rewrite !walk_cons;
    (destruct (is_dir_at fs cur) eqn:Hd; simpl; [|done]);
    rewrite (routes_is_dir _ _ _ Hk Hd); simpl;
    (destruct (is_dot c); [apply IHc|]);
    (destruct (is_dotdot c); [apply IHc|]);
    pose proof (Hk (cur ++ [c])) as Hc;
    (destruct (fs !! (cur ++ [c])) as [[]|] eqn:E;
     [destruct (fs' !! (cur ++ [c])) as [[]|] eqn:E';
      [apply IHc|apply IHc|by exfalso; eapply Hc|apply IHc]
     |rewrite Hc; apply IHc
     |rewrite Hc
     |destruct (fs' !! (cur ++ [c])) as [[]|] eqn:E';
      [apply IHc|apply IHc|by exfalso; eapply Hc|apply IHc]]).
  - done.
  - destruct (bool_decide (rest = []) && negb f); [done|].
    destruct (negb (Str.truthy target)); [done|]. apply IHn.
Qed.

Lemma walk_keeps fs fs' f n cur comps k :
  keeps fs fs' →
  walk fs f n cur comps = inr k → walk fs' f n cur comps = inr k.
Proof. intros H. by apply walk_routes, keeps_routes. Qed.

Lemma walk_dots fs f n cur m :
  is_dir_at fs cur = true → walk fs f n cur (replicate m "") = inr cur.
Proof.
  intros Hd. induction m as [|m IH]; [apply walk_nil|].
  simpl. rewrite walk_cons, Hd. simpl. exact IH.
Qed.

(** Resolving a path resolves every leading part of it to a directory. *)
Lemma walk_prefix fs f n cur c1 c c2 k :
  walk fs f n cur (c1 ++ c :: c2) = inr k →
  ∃ k1, walk fs true n cur c1 = inr k1 ∧ is_dir_at fs k1 = true.
Proof.
  revert cur c1.
  induction n as [|n IHn]; intros cur c1; revert cur;
    (induction c1 as [|x c1 IHc]; intros cur; simpl;
     [rewrite walk_nil, walk_cons;
      destruct (is_dir_at fs cur) eqn:Hd; simpl; [eauto|done]|]);
    rewrite !walk_cons;
    (destruct (is_dir_at fs cur) eqn:Hd; simpl; [|done]);
    (destruct (is_dot x); [apply IHc|]);
    (destruct (is_dotdot x); [apply IHc|]);
    destruct (fs !! (cur ++ [x])) as [[]|] eqn:E; try apply IHc;
    rewrite andb_false_r;
    (replace (bool_decide (c1 ++ c :: c2 = [])) with false
       by (symmetry; apply bool_decide_eq_false; by destruct c1)); simpl.
  - done.
  - destruct (negb (Str.truthy target)); [done|].
    rewrite app_assoc. apply IHn.
Qed.

(** What [stat] finds, [lstat] finds or finds the link leading to it. *)
Lemma walk_nofollow fs n cur comps k :
  walk fs true n cur comps = inr k → is_Some (node_at fs k) →
  ∃ k', walk fs false n cur comps = inr k' ∧ is_Some (node_at fs k').
Proof.
  revert cur comps.
  induction n as [|n IHn]; intros cur comps; revert cur;
    (induction comps as [|c rest IHc]; intros cur;
     [rewrite !walk_nil; intros [= <-] ?; eauto|]);
    rewrite !walk_cons;
    (destruct (is_dir_at fs cur) eqn:Hd; simpl; [|done]);
    (destruct (is_dot c); [apply IHc|]);
    (destruct (is_dotdot c); [apply IHc|]);
    destruct (fs !! (cur ++ [c])) as [[]|] eqn:E; try apply IHc;
    rewrite andb_false_r, andb_true_r;
    (case_bool_decide;
     [intros _ _; exists (cur ++ [c]); split; [done|];
      unfold node_at; destruct cur; simpl in *; rewrite E; eauto|]).
  - done.
  - destruct (negb (Str.truthy target)); [done|]. apply IHn.
Qed.

End Walk.

(** ** Effects of the services *)

Section Effects.

Lemma evolves_refl s : evolves s s [].
Proof.
  unfold evolves. rewrite app_nil_r. repeat split; auto using keeps_refl.
Qed.

Lemma evolves_trans s1 s2 s3 e1 e2 :
  evolves s1 s2 e1 → evolves s2 s3 e2 → evolves s1 s3 (e1 ++ e2).
Proof.
  intros (Ht1 & Hc1 & Hf1 & Hk1) (Ht2 & Hc2 & Hf2 & Hk2).
  repeat split.
  - by rewrite Ht2, Ht1, app_assoc.
  - congruence.
  - unfold replay in *. by rewrite foldl_app, <- Hf1.
  - eauto using keeps_trans.
Qed.

Lemma evolves_scanned base s :
  ∃ evs, evolves s (scanned base s) evs ∧ (evs = [] ∨ evs = [EvListdir base]).
Proof.
  unfold scanned. destruct (os.isdir s base).
  - exists [EvListdir base]. split; [|auto].
    repeat split; auto using keeps_refl.
  - exists []. split; [apply evolves_refl|auto].
Qed.

Lemma node_at_None fs k : node_at fs k = None → fs !! k = None.
Proof. by destruct k. Qed.

Lemma node_at_File fs k c : node_at fs k = Some (File c) → fs !! k = Some (File c).
Proof. by destruct k. Qed.

Lemma mkdir_outcome p s :
  match os.mkdir p s with
  | Ok _ s' => ∃ k, files s !! k = None ∧ evolves s s' [EvMkdir p k]
  | Raise e s' => s' = s ∧ ∃ en, e = OSError en
  end.
Proof.
  unfold os.mkdir.
  destruct (resolve s false _) as [en|k]; [eauto|].
  destruct (node_at (files s) k) as [nd|] eqn:E; [eauto|].
  apply node_at_None in E. simpl. exists k. split; [done|].
  repeat split; simpl; auto using keeps_insert_dir.
Qed.


Lemma with_open_inv p data s o :
  with_open_w_write p data s = o →
  match o with
  | Ok _ s' => ∃ k, writable s p k ∧ s' = written p data k s
  | Raise e s' => s' = s
  end.
Proof.
  intros <-. unfold with_open_w_write, bind, open_w.
  destruct (resolve s true p) as [en|k] eqn:Hr; [done|].
  destruct (node_at (files s) k) as [[c| |t]|] eqn:Hn; try done.
  - exists k. split; [split; eauto|].
    unfold written, close, emit; simpl.
    by rewrite insert_insert_eq, <- !app_assoc.
  - exists k. split; [split; eauto|].
    unfold written, close, emit; simpl.
    by rewrite insert_insert_eq, <- !app_assoc.
Qed.

Lemma evolves_written p data k s :
  writable s p k →
  evolves s (written p data k s) [EvOpen p k; EvWrite p k data; EvClose p k].
Proof.
  intros [_ Hn]. repeat split; simpl.
  - by rewrite insert_insert_eq.
  - apply keeps_insert_file. intros nd E.
    destruct Hn as [Hn|[c Hn]].
    + apply node_at_None in Hn. congruence.
    + apply node_at_File in Hn. exists c. congruence.
Qed.

End Effects.

(** ** [os.makedirs] *)

Section Makedirs.

Lemma mkdir_under_weaken head name ev :
  String.prefix head name = true → mkdir_under head ev → mkdir_under name ev.
Proof. intros Hp (p & k & -> & Hpre). exists p, k. eauto using prefix_trans. Qed.

(** All [os.makedirs(name)] does is make directories, at leading parts of
    [name], where nothing was. *)
Lemma makedirs_rec_effect fuel name s :
  ∃ evs, evolves s (final (os.makedirs_rec fuel name s)) evs ∧
         Forall (mkdir_under name) evs.
Proof.
  revert name s. induction fuel as [|fuel IH]; intros name s.
  { exists []. split; [apply evolves_refl|constructor]. }
  simpl.
  pose proof (split_head_prefix name) as Hp1.
  destruct (posixpath.split name) as [head1 tail1]. simpl in Hp1.
  assert (∃ head tail,
    (if negb (Str.truthy tail1) then posixpath.split head1 else (head1, tail1))
      = (head, tail) ∧ String.prefix head name = true) as (head & tail & -> & Hp).
  { destruct (negb (Str.truthy tail1)); [|eauto].
    pose proof (split_head_prefix head1) as Hp2.
    destruct (posixpath.split head1) as [h2 t2]. simpl in *.
    eauto using prefix_trans. }
  (* the step on [name] itself *)
  assert (∀ s1, ∃ evs,
    evolves s1 (final (match os.mkdir name s1 with
                       | Raise (OSError e) s' =>
                           if negb (os.isdir s' name) then Raise (OSError e) s' else Ok () s'
                       | o => o
                       end)) evs ∧ Forall (mkdir_under name) evs) as Hlast.
  { intros s1. pose proof (mkdir_outcome name s1) as Hm.
    destruct (os.mkdir name s1) as [[] s'|e s'].
    - destruct Hm as (k & _ & Hev). exists [EvMkdir name k]. split; [done|].
      repeat constructor. exists name, k. split; [done|apply prefix_refl].
    - destruct Hm as (-> & en & ->). exists [].
      split; [|constructor].
      destruct (negb _); apply evolves_refl. }
  unfold bind at 1.
  destruct (Str.truthy head && Str.truthy tail); simpl; [|apply Hlast].
  unfold bind at 1, get at 1.
  destruct (negb (os.exists_ s head)); simpl; [|apply Hlast].
  unfold bind at 1.
  destruct (IH head s) as (evs1 & Hev1 & Hall1).
  assert (Forall (mkdir_under name) evs1) as Hall1'.
  { eapply Forall_impl; [done|]. intros ev. by apply mkdir_under_weaken. }
  destruct (os.makedirs_rec fuel head s) as [[] s1|e s1]; simpl in Hev1.
  - unfold ret at 1. destruct (negb (String.eqb tail ".")); simpl.
    + destruct (Hlast s1) as (evs2 & Hev2 & Hall2).
      exists (evs1 ++ evs2). split; [by eapply evolves_trans|by apply Forall_app].
    + exists evs1; by split.
  - destruct e as [[]| | |]; simpl; try (exists evs1; by split).
    destruct (negb (String.eqb tail ".")); simpl.
    + destruct (Hlast s1) as (evs2 & Hev2 & Hall2).
      exists (evs1 ++ evs2). split; [by eapply evolves_trans|by apply Forall_app].
    + exists evs1; by split.
Qed.

Lemma makedirs_effect name s :
  ∃ evs, evolves s (final (os.makedirs name s)) evs ∧
         Forall (mkdir_under name) evs.
Proof. apply makedirs_rec_effect. Qed.

End Makedirs.

(** ** The phases of a run *)

Section Run.

Lemma run_eq order args s :
  run order args s =
    match prepare args s with
    | Ok _ s2 =>
        deliver args (retained order s2 (directory args))
                (scanned (directory args) s2)
    | Raise e s2 => Raise e s2
    end.
Proof.
  unfold run, prepare, deliver, bind.
  destruct (os.makedirs _ s) as [[] s1|e s1]; [|done].
  destruct (if Str.truthy (trigger_file args) then _ else _) as [[] s2|e s2]; [|done].
  rewrite scan_eq. done.
Qed.

Lemma prepare_effect args s :
  ∃ evs, evolves s (final (prepare args s)) evs ∧
    Forall (λ ev, mkdir_under (posixpath.dirname (out_file args)) ev ∨
                  (Str.truthy (trigger_file args) = true ∧
                   mkdir_under (posixpath.dirname (trigger_file args)) ev)) evs.
Proof.
  unfold prepare, bind.
  destruct (makedirs_effect (posixpath.dirname (out_file args)) s) as (e1 & He1 & Ha1).
  assert (Forall (λ ev, mkdir_under (posixpath.dirname (out_file args)) ev ∨
                  (Str.truthy (trigger_file args) = true ∧
                   mkdir_under (posixpath.dirname (trigger_file args)) ev)) e1) as Ha1'.
  { eapply Forall_impl; [done|]. by left. }
  destruct (os.makedirs _ s) as [[] s1|e s1]; simpl in *; [|eauto].
  destruct (Str.truthy (trigger_file args)) eqn:Ht; [|eauto].
  destruct (makedirs_effect (posixpath.dirname (trigger_file args)) s1) as (e2 & He2 & Ha2).
  exists (e1 ++ e2). split; [by eapply evolves_trans|].
  apply Forall_app. split; [done|].
  eapply Forall_impl; [done|]. by right.
Qed.

Lemma resolve_evolves s s' evs f p k :
  evolves s s' evs → resolve s f p = inr k → resolve s' f p = inr k.
Proof.
  intros (_ & Hc & _ & Hk). unfold resolve. rewrite Hc.
  destruct (negb (Str.truthy p)); [done|]. by apply walk_keeps.
Qed.

Lemma isdir_evolves s s' evs p :
  evolves s s' evs → os.isdir s p = true → os.isdir s' p = true.
Proof.
  intros He Hd. destruct (isdir_resolve _ _ Hd) as (k & Hr & Hn).
  unfold os.isdir, stat, stat_with.
  rewrite (resolve_evolves _ _ _ _ _ _ He Hr).
  destruct He as (_ & _ & _ & Hk).
  by rewrite (keeps_node_dir _ _ _ Hk Hn).
Qed.

Lemma writable_not_root s p k : writable s p k → k ≠ [].
Proof. intros [_ [H|[c H]]] ->; done. Qed.

Lemma read_written p data k s :
  writable s p k → read_file (written p data k s) p = Some data.
Proof.
  intros Hw. pose proof (evolves_written p data k s Hw) as He.
  destruct Hw as [Hr Hn].
  unfold read_file, stat, stat_with.
  rewrite (resolve_evolves _ _ _ _ _ _ He Hr). simpl.
  destruct k as [|c k]; [by destruct Hn as [?|[? ?]]|].
  simpl. by rewrite lookup_insert_eq.
Qed.

(** A later write elsewhere leaves what was written. *)
Lemma read_written_other p data k q data' k' s :
  writable s p k → writable (written p data k s) q k' → k ≠ k' →
  read_file (written q data' k' (written p data k s)) p = Some data.
Proof.
  intros Hw Hw' Hne.
  pose proof (evolves_written p data k s Hw) as He.
  pose proof (evolves_written q data' k' _ Hw') as He'.
  pose proof (writable_not_root _ _ _ Hw) as Hk.
  destruct Hw as [Hr Hn].
  unfold read_file, stat, stat_with.
  rewrite (resolve_evolves _ _ _ _ _ _ He' (resolve_evolves _ _ _ _ _ _ He Hr)).
  simpl. destruct k as [|c k]; [done|]. simpl.
  rewrite lookup_insert_ne by done. by rewrite lookup_insert_eq.
Qed.

(** What success of [deliver] amounts to. *)
Lemma deliver_inv args subdirs s s' :
  deliver args subdirs s = Ok tt s' →
  ∃ k, writable s (out_file args) k ∧
    let s3 := written (out_file args) (rendering subdirs) k s in
    if Str.truthy (trigger_file args)
    then ∃ k', writable s3 (trigger_file args) k' ∧
               s' = written (trigger_file args) "" k' s3
    else s' = s3.
Proof.
  unfold deliver, bind. intros H.
  pose proof (with_open_inv (out_file args) (rendering subdirs) s _ eq_refl) as H1.
  destruct (with_open_w_write (out_file args) _ s) as [[] s3|e s3]; [|done].
  destruct H1 as (k & Hw & ->). exists k. split; [done|]. simpl.
  destruct (Str.truthy (trigger_file args)).
  - pose proof (with_open_inv (trigger_file args) "" _ _ H) as H2. simpl in H2.
    done.
  - by injection H.
Qed.

End Run.

(** ** The events of a run *)

Section Trace.

Lemma written_events p data k s :
  trace (written p data k s) = trace s ++ file_events p data k.
Proof. done. Qed.

(** The events of a run, in order: directories are made, the target is
    listed, the output file is opened, written and closed, and only then
    the trigger file is. *)
Lemma run_trace order args s :
  let o := run order args s in
  let data := rendering (subdirs_of order args s) in
  ∃ dirs listed tail,
    evolves s (final o) (dirs ++ listed ++ tail) ∧
    Forall (λ ev, ∃ p k, ev = EvMkdir p k ∧ on_parent_path args p) dirs ∧
    (listed = [] ∨ listed = [EvListdir (directory args)]) ∧
    ((tail = [] ∧ ∃ e, o = Raise e (final o)) ∨
     (∃ k, tail = file_events (out_file args) data k ∧
           if Str.truthy (trigger_file args)
           then ∃ e, o = Raise e (final o) else o = Ok tt (final o)) ∨
     (∃ k k', Str.truthy (trigger_file args) = true ∧
              tail = file_events (out_file args) data k ++
                     file_events (trigger_file args) "" k' ∧
              o = Ok tt (final o))).
Proof.
  intros o data. subst o data. unfold subdirs_of. rewrite run_eq.
  destruct (prepare_effect args s) as (dirs & Hd & Hall).
  assert (Forall (λ ev, ∃ p k, ev = EvMkdir p k ∧ on_parent_path args p) dirs) as Hall'.
  { eapply Forall_impl; [done|]. intros ev [(p & k & -> & Hp)|[Ht (p & k & -> & Hp)]];
      exists p, k; (split; [done|]); [by left|by right]. }
  destruct (prepare args s) as [[] s2|e s2]; simpl in *.
  2:{ exists dirs, [], []. rewrite !app_nil_r.
      split; [done|split; [done|split; [by left|]]]. left. eauto. }
  destruct (evolves_scanned (directory args) s2) as (listed & Hl & Hlisted).
  unfold deliver, bind.
  set (data := rendering (retained order s2 (directory args))).
  pose proof (with_open_inv (out_file args) data (scanned (directory args) s2) _ eq_refl) as H1.
  destruct (with_open_w_write (out_file args) data _) as [[] s3|e s3].
  2:{ subst s3. exists dirs, listed, []. rewrite app_nil_r. simpl.
      split; [exact (evolves_trans _ _ _ _ _ Hd Hl)|].
      split; [done|split; [done|]]. left. eauto. }
  destruct H1 as (k & Hw & ->).
  pose proof (evolves_written _ data _ _ Hw) as H3.
  destruct (Str.truthy (trigger_file args)) eqn:Ht.
  - pose proof (with_open_inv (trigger_file args) "" (written (out_file args) data k
                   (scanned (directory args) s2)) _ eq_refl) as H2.
    destruct (with_open_w_write (trigger_file args) "" _) as [[] s4|e s4].
    + destruct H2 as (k' & Hw' & ->).
      pose proof (evolves_written _ "" _ _ Hw') as H4.
      exists dirs, listed, (file_events (out_file args) data k ++
                            file_events (trigger_file args) "" k').
      split; [|split; [done|split; [done|]]].
      * exact (evolves_trans _ _ _ _ _ Hd
                 (evolves_trans _ _ _ _ _ Hl (evolves_trans _ _ _ _ _ H3 H4))).
      * right; right. exists k, k'. eauto.
    + subst s4. exists dirs, listed, (file_events (out_file args) data k).
      split; [|split; [done|split; [done|]]].
      * exact (evolves_trans _ _ _ _ _ Hd (evolves_trans _ _ _ _ _ Hl H3)).
      * right; left. exists k. eauto.
  - exists dirs, listed, (file_events (out_file args) data k).
    split; [|split; [done|split; [done|]]].
    + exact (evolves_trans _ _ _ _ _ Hd (evolves_trans _ _ _ _ _ Hl H3)).
    + right; left. exists k. eauto.
Qed.


End Trace.

(** [Hin] puts an event in a list of events of other kinds. *)
Ltac not_among Hin :=
  simpl in Hin;
  repeat (apply elem_of_cons in Hin as [Hin|Hin]; [discriminate Hin|]);
  by apply elem_of_nil in Hin.


(** ** Heads, tails and components of a path *)

Section Components.

Lemma is_slash_eq c : Str.is_slash c = true → c = Str.slash.
Proof. apply Ascii.eqb_eq. Qed.

Lemma mul_succ_r c n : Str.mul c (S n) = Str.mul c n +:+ String c "".
Proof. induction n as [|n IH]; [done|]. simpl in *. by rewrite IH at 1. Qed.

Lemma rstrip_mul n : Str.rstrip (Str.mul Str.slash n) = "".
Proof. induction n as [|n IH]; [done|]. simpl. by rewrite IH. Qed.

(** [h] is [h.rstrip('/')] followed by slashes. *)
Lemma rstrip_app h : ∃ j, h = Str.rstrip h +:+ Str.mul Str.slash j.
Proof.
  induction h as [|c h [j IH]]; [by exists 0|]. simpl.
  destruct (Str.rstrip h) as [|c' r] eqn:E.
  - destruct (Str.is_slash c) eqn:Ec.
    + exists (S j). apply is_slash_eq in Ec as ->. simpl. by rewrite IH at 1.
    + exists j. rewrite IH at 1. done.
  - exists j. rewrite IH at 1. done.
Qed.

Lemma rstrip_not_ends h : Str.ends_with_slash (Str.rstrip h) = false.
Proof.
  induction h as [|c h IH]; [done|]. simpl.
  destruct (Str.rstrip h) as [|c' r] eqn:E.
  - destruct (Str.is_slash c) eqn:Ec; simpl; [done|]. by rewrite Ec.
  - simpl in *. done.
Qed.

Lemma rstrip_fix h : Str.ends_with_slash h = false → Str.rstrip h = h.
Proof.
  induction h as [|c h IH]; [done|]. simpl.
  destruct h as [|c' h'].
  - simpl. by intros ->.
  - intros Hh. rewrite (IH Hh). done.
Qed.

Lemma rstrip_idem h : Str.rstrip (Str.rstrip h) = Str.rstrip h.
Proof. apply rstrip_fix, rstrip_not_ends. Qed.

Lemma ends_app_slash a : Str.ends_with_slash (a +:+ String Str.slash "") = true.
Proof.
  induction a as [|c a IH]; [done|]. rewrite app_cons. simpl.
  destruct (a +:+ String Str.slash "") eqn:E; [by destruct a|done].
Qed.

Lemma split_nonempty s : Str.split s ≠ [].
Proof.
  destruct s as [|c s]; [done|]. simpl.
  destruct (Str.is_slash c); [done|]. by destruct (Str.split s).
Qed.

Lemma split_app_slash a b :
  Str.split (a +:+ String Str.slash b) = Str.split a ++ Str.split b.
Proof.
  induction a as [|c a IH]; [done|]. rewrite app_cons. simpl.
  destruct (Str.is_slash c); [by rewrite IH|].
  rewrite IH. pose proof (split_nonempty a). by destruct (Str.split a).
Qed.

Lemma split_no_slash t : Str.has_slash t = false → Str.split t = [t].
Proof.
  induction t as [|c t IH]; [done|]. simpl.
  destruct (Str.is_slash c); [done|]. simpl. intros Ht. by rewrite (IH Ht).
Qed.

Lemma split_mul_slash j : Str.split (Str.mul Str.slash j) = replicate (S j) "".
Proof. induction j as [|j IH]; [done|]. simpl. by rewrite IH. Qed.

Lemma split_slashes_app j b :
  Str.split (Str.mul Str.slash j +:+ b) = replicate j "" ++ Str.split b.
Proof.
  induction j as [|j IH]; [done|].
  change (Str.mul Str.slash (S j) +:+ b)
    with (String Str.slash (Str.mul Str.slash j +:+ b)).
  simpl. by rewrite IH.
Qed.

Lemma split_app_slashes a j b :
  Str.split (a +:+ Str.mul Str.slash (S j) +:+ b) =
    Str.split a ++ replicate j "" ++ Str.split b.
Proof.
  change (a +:+ Str.mul Str.slash (S j) +:+ b)
    with (a +:+ String Str.slash (Str.mul Str.slash j +:+ b)).
  by rewrite split_app_slash, split_slashes_app.
Qed.

Lemma rcut_tail_no_slash s : Str.has_slash (Str.rcut s).2 = false.
Proof.
  induction s as [|c s IH]; [done|]. simpl.
  destruct (Str.rcut s) as [h t]. simpl in *.
  destruct (Str.has_slash s) eqn:Es; [done|].
  destruct (Str.is_slash c) eqn:Ec; simpl; [done|]. by rewrite Ec, Es.
Qed.

Lemma rcut_head_ends s :
  if Str.has_slash s then Str.ends_with_slash (Str.rcut s).1 = true
  else (Str.rcut s).1 = "".
Proof.
  induction s as [|c s IH]; [done|]. simpl.
  destruct (Str.rcut s) as [h t]. simpl in *.
  destruct (Str.has_slash s) eqn:Es.
  - rewrite orb_true_r. simpl. by destruct h.
  - rewrite orb_false_r. destruct (Str.is_slash c) eqn:Ec; [simpl; by rewrite Ec|done].
Qed.

Lemma starts_app a b :
  Str.truthy a = true → Str.starts_with_slash (a +:+ b) = Str.starts_with_slash a.
Proof. by destruct a. Qed.

(** The components of a path begin with the components of its head,
    unless the head is the root. *)
Lemma split_head_comps name head tail :
  posixpath.split name = (head, tail) → Str.truthy head = true →
  (∃ m, head = Str.mul Str.slash (S m)) ∨
  (Str.starts_with_slash name = Str.starts_with_slash head ∧
   ∃ c rest, Str.split name = Str.split head ++ c :: rest).
Proof.
  unfold posixpath.split.
  pose proof (rcut_app name) as Hn. pose proof (rcut_tail_no_slash name) as Ht.
  pose proof (rcut_head_ends name) as Hh.
  destruct (Str.rcut name) as [h t]. simpl in *.
  destruct (Str.truthy h && negb (h =? Str.mul Str.slash (String.length h))%string) eqn:E.
  - intros [= <- <-] Hhead. right.
    apply andb_true_iff in E as [Hth _].
    destruct (rstrip_app h) as [j Hj].
    assert (Str.ends_with_slash h = true) as Hends.
    { destruct (Str.has_slash name); [done|]. by rewrite Hh in Hth. }
    destruct j as [|j].
    { exfalso. simpl in Hj. rewrite app_empty_r in Hj.
      pose proof (rstrip_not_ends h) as Hne. rewrite <- Hj in Hne. congruence. }
    rewrite <- Hn. remember (Str.rstrip h) as r eqn:Hr.
    rewrite Hj, !app_assoc_str.
    split; [by rewrite starts_app|].
    rewrite split_app_slashes, (split_no_slash _ Ht).
    destruct j; simpl; eauto.
  - intros [= <- <-] Hhead. left. rewrite Hhead in E. simpl in E.
    apply negb_false_iff, String.eqb_eq in E.
    destruct (String.length h) as [|m]; [by rewrite E in Hhead|]. eauto.
Qed.

(** What [os.mkdir] resolves for a head is the head itself. *)
Lemma split_head_stable name :
  match Str.rstrip (posixpath.split name).1 with
  | "" => (posixpath.split name).1
  | q => q
  end = (posixpath.split name).1.
Proof.
  unfold posixpath.split. destruct (Str.rcut name) as [h t]. simpl.
  destruct (Str.truthy h && negb _) eqn:E.
  - rewrite rstrip_idem. by destruct (Str.rstrip h).
  - assert (Str.rstrip h = "") as ->; [|done].
    destruct (Str.truthy h) eqn:Eh; [|by destruct h]. simpl in E.
    apply negb_false_iff, String.eqb_eq in E. rewrite E.
    apply rstrip_mul.
Qed.

End Components.

(** ** Parent directories that exist already *)

Section Existing.

#[local] Arguments walk : simpl never.

Lemma isdir_root_slashes s m : os.isdir s (Str.mul Str.slash (S m)) = true.
Proof.
  unfold os.isdir, stat, stat_with, resolve. simpl Str.truthy. simpl negb.
  cbv iota. simpl Str.starts_with_slash.
  rewrite (split_mul_slash (S m)).
  by rewrite walk_dots.
Qed.

(** Whatever a path resolves to, its head is a directory. *)
Lemma isdir_head s f name head tail k :
  posixpath.split name = (head, tail) → Str.truthy head = true →
  resolve s f name = inr k → os.isdir s head = true.
Proof.
  intros Hs Hh Hr.
  destruct (split_head_comps _ _ _ Hs Hh) as [[m ->]|(Hst & c & rest & Hc)].
  { apply isdir_root_slashes. }
  unfold resolve in Hr. destruct (negb (Str.truthy name)); [done|].
  rewrite Hc, Hst in Hr.
  destruct (walk_prefix _ _ _ _ _ _ _ _ Hr) as (k1 & Hw & Hd).
  unfold os.isdir, stat, stat_with, resolve. rewrite Hh. simpl negb. cbv iota.
  rewrite Hw. unfold is_dir_at in Hd.
  by destruct (node_at (files s) k1) as [[]|].
Qed.

Lemma isdir_dirname s f p k :
  Str.truthy (posixpath.dirname p) = true →
  resolve s f p = inr k → os.isdir s (posixpath.dirname p) = true.
Proof.
  rewrite <- split_fst_dirname. intros Hh Hr.
  destruct (posixpath.split p) as [head tail] eqn:Hs. by eapply isdir_head.
Qed.

Lemma isdir_exists s p : os.isdir s p = true → os.exists_ s p = true.
Proof. unfold os.isdir, os.exists_. by destruct (stat s p). Qed.

Lemma isdir_truthy s p : os.isdir s p = true → Str.truthy p = true.
Proof. unfold os.isdir, stat, stat_with, resolve. by destruct p. Qed.

Lemma prefix_truthy a b :
  String.prefix a b = true → Str.truthy a = true → Str.truthy b = true.
Proof. destruct a, b; done. Qed.

Lemma mkdir_existing s name :
  os.isdir s name = true → stable name →
  os.mkdir name s = Raise FileExistsError s.
Proof.
  intros Hd Hst. unfold os.mkdir. unfold stable in Hst. rewrite Hst.
  destruct (isdir_resolve _ _ Hd) as (k & Hr & Hn).
  unfold resolve in *. destruct (negb (Str.truthy name)); [done|].
  destruct (walk_nofollow _ _ _ _ _ Hr) as (k' & -> & [nd ->]); [by rewrite Hn|].
  done.
Qed.

(** [os.makedirs(name, exist_ok=True)] on a directory that is there does
    nothing and raises nothing. *)
Lemma makedirs_existing fuel s name :
  os.isdir s name = true → stable name →
  os.makedirs_rec (S fuel) name s = Ok tt s.
Proof.
  intros Hd Hst.
  destruct (isdir_resolve _ _ Hd) as (k & Hr & _).
  simpl.
  destruct (posixpath.split name) as [head1 tail1] eqn:Hs1.
  assert (Str.truthy head1 = true → os.isdir s head1 = true) as Hd1
    by (intros ?; by eapply isdir_head).
  assert (∃ head tail,
    (if negb (Str.truthy tail1) then posixpath.split head1 else (head1, tail1))
      = (head, tail) ∧ (Str.truthy head = true → os.exists_ s head = true))
    as (head & tail & -> & Hex).
  { destruct (negb (Str.truthy tail1)).
    - destruct (posixpath.split head1) as [h2 t2] eqn:Hs2.
      exists h2, t2. split; [done|]. intros Hh2.
      pose proof (split_head_prefix head1) as Hp. rewrite Hs2 in Hp. simpl in Hp.
      pose proof (prefix_truthy _ _ Hp Hh2) as Hh1.
      destruct (isdir_resolve _ _ (Hd1 Hh1)) as (k1 & Hr1 & _).
      apply isdir_exists. by eapply isdir_head.
    - exists head1, tail1. split; [done|]. intros ?. by apply isdir_exists, Hd1. }
  unfold bind, get, ret.
  destruct (Str.truthy head) eqn:Hh; simpl;
    [destruct (Str.truthy tail); simpl; [rewrite (Hex eq_refl); simpl|]|];
    by rewrite (mkdir_existing _ _ Hd Hst), Hd.
Qed.

Lemma stable_dirname p : stable (posixpath.dirname p).
Proof. unfold stable. rewrite <- split_fst_dirname. apply split_head_stable. Qed.

Lemma makedirs_dirname_existing s p :
  os.isdir s (posixpath.dirname p) = true →
  os.makedirs (posixpath.dirname p) s = Ok tt s.
Proof. intros Hd. by apply makedirs_existing, stable_dirname. Qed.

End Existing.

(** ** What is listed *)

Section Listing.

#[local] Arguments walk : simpl never.

Lemma entry_name_Some k k' n : entry_name k k' = Some n ↔ k' = k ++ [n].
Proof.
  unfold entry_name. split.
  - destruct (reverse k') as [|m rp] eqn:E; [done|].
    case_decide as Hk; [|done]. intros [= ->].
    rewrite <- (reverse_involutive k'), E, reverse_cons. by rewrite Hk.
  - intros ->. rewrite reverse_app. simpl.
    by rewrite decide_True by apply reverse_involutive.
Qed.

Lemma elem_of_children fs k n :
  n ∈ children fs k ↔ is_Some (fs !! (k ++ [n])).
Proof.
  unfold children. rewrite list_elem_of_omap. split.
  - intros (k' & Hin & Hn). apply entry_name_Some in Hn as ->.
    by apply elem_of_elements, elem_of_dom in Hin.
  - intros Hs. exists (k ++ [n]). split; [|by apply entry_name_Some].
    by apply elem_of_elements, elem_of_dom.
Qed.

(** Where [lstat] finds something other than a link, [stat] finds the same. *)
Lemma walk_follow fs n cur comps k nd :
  walk fs false n cur comps = inr k →
  node_at fs k = Some nd → (∀ t, nd ≠ Link t) →
  walk fs true n cur comps = inr k.
Proof.
  intros Hw Hn Hnd. revert cur comps Hw.
  induction n as [|n IHn]; intros cur comps; revert cur;
    (induction comps as [|c rest IHc]; intros cur; [by rewrite !walk_nil|]);
    rewrite !walk_cons;
    (destruct (is_dir_at fs cur) eqn:Hd; simpl; [|done]);
    (destruct (is_dot c); [apply IHc|]);
    (destruct (is_dotdot c); [apply IHc|]);
    destruct (fs !! (cur ++ [c])) as [[]|] eqn:E; try apply IHc;
    rewrite andb_false_r, andb_true_r;
    (case_bool_decide;
     [intros [= <-]; exfalso;
      assert (node_at fs (cur ++ [c]) = fs !! (cur ++ [c])) as Hna by (by destruct cur);
      rewrite Hna, E in Hn; injection Hn as <-; by eapply Hnd|]).
  - done.
  - destruct (negb (Str.truthy target)); [done|]. apply IHn.
Qed.

Lemma lstat_stat s p nd :
  lstat s p = inr nd → (∀ t, nd ≠ Link t) → stat s p = inr nd.
Proof.
  unfold lstat, stat, stat_with, resolve. intros H Hnd.
  destruct (negb (Str.truthy p)); [done|].
  destruct (walk (files s) false _ _ _) as [e|k] eqn:Hw; [done|].
  destruct (node_at (files s) k) as [nd'|] eqn:Hn; [|done].
  injection H as ->.
  by rewrite (walk_follow _ _ _ _ _ _ Hw Hn Hnd), Hn.
Qed.

End Listing.


(** ** Entries of a directory and the paths that name them *)

Section Entries.

#[local] Arguments walk : simpl never.



Lemma split_comps_no_slash s : Forall (λ c, Str.has_slash c = false) (Str.split s).
Proof.
  induction s as [|c s IH]; [by repeat constructor|]. simpl.
  destruct (Str.is_slash c) eqn:Ec; [by constructor|].
  destruct (Str.split s) as [|h t]; [by repeat constructor; simpl; rewrite Ec|].
  inversion IH as [|? ? Hh Ht]; subst. constructor; [|done]. simpl. by rewrite Ec.
Qed.

Lemma valid_name_intro c :
  Str.has_slash c = false → is_dot c = false → is_dotdot c = false →
  valid_name c = true.
Proof.
  intros Hs Hd Hdd. unfold valid_name. rewrite Hs, Hd, Hdd.
  destruct c; [done|done].
Qed.

(** Resolution only reaches well-formed locations. *)
Lemma walk_valid fs f n cur comps k :
  Forall (λ c, valid_name c = true) cur →
  Forall (λ c, Str.has_slash c = false) comps →
  walk fs f n cur comps = inr k →
  Forall (λ c, valid_name c = true) k.
Proof.
  revert cur comps.
  induction n as [|n IHn]; intros cur comps; revert cur;
    (induction comps as [|c rest IHc]; intros cur Hcur Hcomps;
     [rewrite walk_nil; by intros [= <-]|]);
    apply Forall_cons in Hcomps as [Hc Hrest];
    rewrite walk_cons;
    (destruct (is_dir_at fs cur); simpl; [|done]);
    (destruct (is_dot c) eqn:Edot; [by apply IHc|]);
    (destruct (is_dotdot c) eqn:Edd;
     [apply IHc; [by apply Forall_take|done]|]);
    (assert (Forall (λ c, valid_name c = true) (cur ++ [c])) as Hnew
       by (apply Forall_app; split; [done|];
           apply Forall_singleton; by apply valid_name_intro));
    destruct (fs !! (cur ++ [c])) as [[]|] eqn:E; try (by apply IHc);
    (destruct (bool_decide (rest = []) && negb f); [by intros [= <-]|]).
  - done.
  - destruct (negb (Str.truthy target)); [done|].
    apply IHn.
    + by destruct (Str.starts_with_slash target).
    + apply Forall_app. split; [apply split_comps_no_slash|done].
Qed.





End Entries.

(** ** Running again *)

Section Again.










Lemma makedirs_empty s : os.makedirs "" s = Raise FileNotFoundError s.
Proof. reflexivity. Qed.

Lemma prepare_inv args s sb :
  prepare args s = Ok tt sb →
  Str.truthy (posixpath.dirname (out_file args)) = true ∧
  (Str.truthy (trigger_file args) = true →
   Str.truthy (posixpath.dirname (trigger_file args)) = true).
Proof.
  unfold prepare, bind. intros H. split.
  - destruct (posixpath.dirname (out_file args)); [by rewrite makedirs_empty in H|done].
  - intros Ht. rewrite Ht in H.
    destruct (os.makedirs (posixpath.dirname (out_file args)) s) as [[] sa|]; [|done].
    destruct (posixpath.dirname (trigger_file args)); [by rewrite makedirs_empty in H|done].
Qed.

Lemma resolve_valid s f p k :
  Forall (λ n, valid_name n = true) (cwd s) →
  resolve s f p = inr k → Forall (λ n, valid_name n = true) k.
Proof.
  unfold resolve. intros Hc. destruct (negb (Str.truthy p)); [done|].
  apply walk_valid; [|apply split_comps_no_slash].
  by destruct (Str.starts_with_slash p).
Qed.

End Again.

(** ** Determinism and idempotence *)

Section Idempotence.




Lemma isdir_scanned base s p : os.isdir (scanned base s) p = os.isdir s p.
Proof. unfold scanned. by destruct (os.isdir s base). Qed.



Lemma retained_scanned order base b s :
  retained order (scanned b s) base = retained order s base.
Proof. unfold scanned. by destruct (os.isdir s b). Qed.


End Idempotence.


(** ** Extra command-line arguments *)

Section Argparse.

Import argparse.

Lemma classify_app b l1 l2 :
  classify b (l1 ++ l2) =
    match classify b l1 with
    | inl e => inl e
    | inr t1 =>
        match classify (marked b l1) l2 with
        | inl e => inl e
        | inr t2 => inr (t1 ++ t2)
        end
    end.
Proof.
  revert b. induction l1 as [|t l1 IH]; intros b.
  - unfold marked. simpl. rewrite orb_false_r. by destruct (classify b l2).
  - simpl. destruct b; simpl.
    + rewrite IH. unfold marked. simpl.
      destruct (classify true l1); [done|]. by destruct (classify true l2).
    + unfold marked. simpl. destruct (String.eqb t "--") eqn:Et; simpl.
      * rewrite IH. unfold marked. simpl.
        destruct (classify true l1); [done|]. by destruct (classify true l2).
      * destruct (parse_optional t); [| |done]; rewrite IH; unfold marked; simpl;
          (destruct (classify false l1); [done|]);
          by destruct (classify _ l2).
Qed.

Lemma classify_unrecognized b xs :
  Forall (λ t, unrecognized t = true) xs →
  marked b xs = b ∧ ∃ toks, classify b xs = inr toks ∧ Forall passive toks.
Proof.
  induction 1 as [|t xs Ht _ [Hm (toks & Hc & Hp)]].
  - unfold marked. simpl. rewrite orb_false_r. split; [done|].
    exists []. by split.
  - unfold unrecognized in Ht. apply andb_true_iff in Ht as [Hdd Ht].
    apply negb_true_iff in Hdd.
    split.
    { unfold marked in *. simpl. by rewrite Hdd. }
    destruct b; simpl.
    + rewrite Hc. eexists. split; [done|]. by constructor.
    + rewrite Hdd.
      destruct (parse_optional t) as [|[a|] o e|]; try done; rewrite Hc;
        (eexists; split; [done|]; by constructor).
Qed.

Lemma consume_alike sc sc' tok :
  alike sc sc' → alike (consume sc tok) (consume sc' tok).
Proof.
  destruct sc as [c n x], sc' as [c' n' x'], tok as [t pat].
  unfold alike, consume, stop, extra. simpl. intros [<- <-].
  destruct c as [|d|e]; [| |done].
  - destruct pat as [| |[[|d]|] o [e|]]; try done.
    destruct (nth_is_dash 1 o); [done|].
    destruct (negb (Str.truthy e)); [done|]. by destruct (help_chain e).
  - by destruct pat.
Qed.

Lemma foldl_consume_alike toks sc sc' :
  alike sc sc' → alike (foldl consume sc toks) (foldl consume sc' toks).
Proof.
  revert sc sc'. induction toks as [|tok toks IH]; intros sc sc' H; [done|].
  simpl. by apply IH, consume_alike.
Qed.

Lemma consume_passive sc tok :
  passive tok → (∀ d, sc_cursor sc ≠ Await d) → alike (consume sc tok) sc.
Proof.
  destruct sc as [c n x], tok as [t pat].
  unfold alike, passive, consume, stop, extra. simpl. intros Hp Hc.
  destruct c as [|d|e]; [|by destruct (Hc d)|done].
  by destruct pat as [| |[a|] o e].
Qed.

Lemma foldl_consume_passive toks sc :
  Forall passive toks → (∀ d, sc_cursor sc ≠ Await d) →
  alike (foldl consume sc toks) sc.
Proof.
  intros Hall. revert sc. induction Hall as [|tok toks Hp _ IH]; intros sc Hc; [done|].
  simpl. pose proof (consume_passive sc tok Hp Hc) as [H1 H2].
  destruct (IH (consume sc tok)) as [H3 H4].
  { intros d. rewrite H1. apply Hc. }
  split; congruence.
Qed.

(** Unrecognized argument strings, put where no option waits for its
    value, change neither the namespace nor the way parsing ends. *)
Lemma parse_known_args_extra pre xs post :
  Forall (λ t, unrecognized t = true) xs →
  awaits_value pre = false →
  match parse_known_args (pre ++ xs ++ post), parse_known_args (pre ++ post) with
  | Parsed a _, Parsed a' _ => a = a'
  | ParsedValues d o t _, ParsedValues d' o' t' _ => d = d' ∧ o = o' ∧ t = t'
  | Exits e, Exits e' => e = e'
  | _, _ => False
  end.
Proof.
  intros Hx Hpre. unfold parse_known_args, awaits_value in *.
  rewrite !classify_app.
  destruct (classify false pre) as [e|t1]; [done|].
  destruct (classify_unrecognized (marked false pre) xs Hx) as (-> & tx & -> & Hp).
  destruct (classify (marked false pre) post) as [e|t2]; [done|].
  rewrite !foldl_app.
  fold scanner_init.
  set (sc1 := foldl consume scanner_init t1) in *.
  assert (∀ d, sc_cursor sc1 ≠ Await d) as Hc.
  { intros d Hd. by rewrite Hd in Hpre. }
  pose proof (foldl_consume_alike t2 _ _ (foldl_consume_passive tx sc1 Hp Hc)) as [H1 H2].
  rewrite H1, H2.
  destruct (sc_cursor (foldl consume sc1 t2)); try done.
  by destruct (sc_namespace (foldl consume sc1 t2)) as [[[d|]|] [[o|]|] [[t|]|]].
Qed.

End Argparse.


(** ** Failure before the scan *)

Section Bare.

Lemma rcut_no_slash p : Str.has_slash p = false → Str.rcut p = ("", p).
Proof.
  induction p as [|c p IH]; [done|]. simpl.
  destruct (Str.is_slash c); [done|]. simpl. intros Hp.
  by rewrite (IH Hp), Hp.
Qed.

Lemma dirname_no_slash p : Str.has_slash p = false → posixpath.dirname p = "".
Proof. intros Hp. unfold posixpath.dirname. by rewrite (rcut_no_slash _ Hp). Qed.

End Bare.


(** ** Well-formed states *)

Section WellFormed.

#[local] Arguments walk : simpl never.

Lemma parent_snoc (k : key) c : parent (k ++ [c]) = k.
Proof.
  unfold parent. rewrite length_app. simpl.
  replace (length k + 1 - 1) with (length k) by lia.
  by rewrite take_app_length.
Qed.

Lemma is_dir_at_some fs k : is_dir_at fs k = true → node_at fs k = Some Dir.
Proof. unfold is_dir_at. by destruct (node_at fs k) as [[]|]. Qed.

Lemma tree_parent_dir fs k :
  tree fs → is_dir_at fs k = true → is_dir_at fs (parent k) = true.
Proof.
  intros Ht Hd. destruct k as [|c k]; [done|].
  apply Ht. apply is_dir_at_some in Hd. simpl in Hd. eauto.
Qed.

(** A location reached by resolution where nothing is stored lies in a
    directory. *)
Lemma walk_created fs f n cur comps k :
  tree fs →
  (node_at fs cur = None → is_dir_at fs (parent cur) = true) →
  walk fs f n cur comps = inr k →
  node_at fs k = None → is_dir_at fs (parent k) = true.
Proof.
  intros Ht. revert cur comps.
  induction n as [|n IHn]; intros cur comps; revert cur;
    (induction comps as [|c rest IHc]; intros cur Hcur;
     [rewrite walk_nil; by intros [= <-]|]);
    rewrite walk_cons;
    (destruct (is_dir_at fs cur) eqn:Hd; simpl; [|done]);
    (assert (∀ k', is_dir_at fs k' = true →
                   node_at fs k' = None → is_dir_at fs (parent k') = true) as Hvac
       by (intros k' Hk' Hn'; apply is_dir_at_some in Hk'; congruence));
    (destruct (is_dot c); [by apply IHc|]);
    (destruct (is_dotdot c);
     [apply IHc, Hvac; by apply tree_parent_dir|]);
    (assert (node_at fs (cur ++ [c]) = None →
             is_dir_at fs (parent (cur ++ [c])) = true) as Hnew
       by (intros _; by rewrite parent_snoc));
    destruct (fs !! (cur ++ [c])) as [[]|] eqn:E; try (by apply IHc);
    (destruct (bool_decide (rest = []) && negb f);
     [intros [= <-] Hn; by apply Hnew|]).
  - done.
  - destruct (negb (Str.truthy target)); [done|].
    apply IHn. destruct (Str.starts_with_slash target); [done|by apply Hvac].
Qed.

Lemma resolve_created s f p k :
  tree (files s) → resolve s f p = inr k → node_at (files s) k = None →
  is_dir_at (files s) (parent k) = true.
Proof.
  unfold resolve. intros Ht. destruct (negb (Str.truthy p)); [done|].
  destruct (Str.starts_with_slash p).
  - apply walk_created; [done|done].
  - destruct (node_at (files s) (cwd s)) eqn:E.
    + apply walk_created; [done|congruence].
    + (* the first component already fails *)
      destruct (Str.split p) as [|c rest] eqn:Es; [by destruct (split_nonempty p)|].
      rewrite walk_cons. unfold is_dir_at. by rewrite E.
Qed.

Lemma is_dir_at_insert fs k nd j :
  is_dir_at fs k = false → is_dir_at fs j = true →
  is_dir_at (<[k := nd]> fs) j = true.
Proof.
  intros Hk Hj. destruct (decide (k = j)) as [->|Hne]; [congruence|].
  unfold is_dir_at, node_at in *. destruct j as [|c j]; [done|].
  by rewrite lookup_insert_ne.
Qed.

Lemma names_valid_insert fs k nd :
  names_valid fs → Forall (λ n, valid_name n = true) k →
  names_valid (<[k := nd]> fs).
Proof.
  intros Hv Hk j Hj. destruct (decide (k = j)) as [<-|Hne]; [done|].
  rewrite lookup_insert_ne in Hj by done. by apply Hv.
Qed.

Lemma tree_insert fs k nd :
  tree fs → is_dir_at fs k = false → is_dir_at fs (parent k) = true →
  tree (<[k := nd]> fs).
Proof.
  intros Ht Hk Hp j Hj. apply is_dir_at_insert; [done|].
  destruct (decide (k = j)) as [<-|Hne]; [done|].
  rewrite lookup_insert_ne in Hj by done. by apply Ht.
Qed.

Lemma node_at_not_dir fs k :
  (node_at fs k = None ∨ ∃ c, node_at fs k = Some (File c)) →
  is_dir_at fs k = false.
Proof. unfold is_dir_at. by intros [->|[c ->]]. Qed.

Lemma well_formed_log ev s : well_formed s → well_formed (log ev s).
Proof. done. Qed.

Lemma well_formed_store s k nd :
  well_formed s →
  Forall (λ n, valid_name n = true) k →
  (node_at (files s) k = None ∨ ∃ c, node_at (files s) k = Some (File c)) →
  (node_at (files s) k = None → is_dir_at (files s) (parent k) = true) →
  ∀ tr, well_formed (mkState (<[k := nd]> (files s)) (cwd s) tr).
Proof.
  intros (Hv & Ht & Hc) Hk Hn Hp tr.
  assert (is_dir_at (files s) (parent k) = true) as Hpar.
  { destruct Hn as [Hn|[c Hn]]; [by apply Hp|].
    apply Ht. destruct k as [|c' k]; [done|]. simpl in Hn. eauto. }
  split; [by apply names_valid_insert|]. split; [|done].
  apply tree_insert; [done|by apply node_at_not_dir|done].
Qed.

Lemma well_formed_mkdir p s : well_formed s → well_formed (final (os.mkdir p s)).
Proof.
  intros Hwf. unfold os.mkdir.
  destruct (resolve s false _) as [e|k] eqn:Hr; [done|].
  destruct (node_at (files s) k) eqn:Hn; [done|]. simpl.
  apply well_formed_store; [done| |by left|].
  - eapply resolve_valid; [apply Hwf|exact Hr].
  - intros _. eapply resolve_created; [apply Hwf|exact Hr|done].
Qed.

Lemma well_formed_written p data k s :
  well_formed s → writable s p k → well_formed (written p data k s).
Proof.
  intros Hwf [Hr Hn]. apply well_formed_store; [done| |done|].
  - eapply resolve_valid; [apply Hwf|exact Hr].
  - intros Hnone. eapply resolve_created; [apply Hwf|exact Hr|done].
Qed.

(** What [os.mkdir] keeps, [os.makedirs] keeps. *)
Lemma makedirs_rec_keeps (P : state → Prop) :
  (∀ p s, P s → P (final (os.mkdir p s))) →
  ∀ fuel name s, P s → P (final (os.makedirs_rec fuel name s)).
Proof.
  intros Hmk. induction fuel as [|fuel IH]; intros name s HP; [done|].
  simpl.
  destruct (posixpath.split name) as [head1 tail1].
  destruct (if negb (Str.truthy tail1) then posixpath.split head1 else (head1, tail1))
    as [head tail].
  assert (∀ s1, P s1 →
    P (final (match os.mkdir name s1 with
              | Raise (OSError e) s' =>
                  if negb (os.isdir s' name) then Raise (OSError e) s' else Ok () s'
              | o => o
              end))) as Hlast.
  { intros s1 H1. specialize (Hmk name s1 H1).
    destruct (os.mkdir name s1) as [[] s2|[en| | |] s2]; try done.
    by destruct (negb _). }
  unfold bind at 1.
  destruct (Str.truthy head && Str.truthy tail); simpl; [|by apply Hlast].
  unfold bind at 1, get at 1.
  destruct (negb (os.exists_ s head)); simpl; [|by apply Hlast].
  unfold bind at 1. specialize (IH head s HP).
  destruct (os.makedirs_rec fuel head s) as [[] s1|e s1]; simpl in IH.
  - unfold ret at 1. destruct (negb (String.eqb tail ".")); simpl; [by apply Hlast|done].
  - destruct e as [[]| | |]; simpl; try done.
    destruct (negb (String.eqb tail ".")); simpl; [by apply Hlast|done].
Qed.

Lemma well_formed_prepare args s :
  well_formed s → well_formed (final (prepare args s)).
Proof.
  intros Hwf. unfold prepare, bind.
  pose proof (makedirs_rec_keeps well_formed well_formed_mkdir
                os.recursion_budget
                (posixpath.dirname (out_file args)) s Hwf) as H1.
  fold (os.makedirs (posixpath.dirname (out_file args)) s) in H1.
  destruct (os.makedirs _ s) as [[] s1|e s1]; [|done]. simpl in H1.
  destruct (Str.truthy (trigger_file args)); [|done].
  apply (makedirs_rec_keeps well_formed well_formed_mkdir); done.
Qed.

Lemma well_formed_scanned base s : well_formed s → well_formed (scanned base s).
Proof. unfold scanned. by destruct (os.isdir s base). Qed.

End WellFormed.

Lemma sample_well_formed : well_formed sample_state.
Proof.
  split; [|split].
  - intros k [nd Hk]. apply elem_of_list_to_map_2 in Hk.
    repeat (apply elem_of_cons in Hk as [[= -> ->]|Hk]; [repeat constructor|]).
    by apply elem_of_nil in Hk.
  - intros k [nd Hk]. apply elem_of_list_to_map_2 in Hk.
    repeat (apply elem_of_cons in Hk as [[= -> ->]|Hk]; [vm_compute; reflexivity|]).
    by apply elem_of_nil in Hk.
  - repeat constructor.
Qed.

Lemma linked_well_formed : well_formed linked_state.
Proof.
  apply (well_formed_store sample_state ["out"; "done"] (Link "list.txt")
           sample_well_formed).
  - repeat constructor.
  - by left.
  - reflexivity.
Qed.

(** ** The lines of the listing *)

Section Lines.

Lemma leb_app p a b : Str.leb (p +:+ a) (p +:+ b) = Str.leb a b.
Proof.
  induction p as [|c p IH]; [done|]. rewrite !app_cons. simpl.
  by rewrite Nat.ltb_irrefl, Nat.eqb_refl.
Qed.

Lemma valid_name_no_lead n : valid_name n = true → Str.starts_with_slash n = false.
Proof.
  unfold valid_name. destruct n as [|c n]; [done|]. simpl.
  by destruct (Str.is_slash c).
Qed.

(** The joined path of a directory entry: the target path as given, one
    slash unless it ends with one, and the name. *)
Lemma join_entry base item :
  Str.truthy base = true → valid_name item = true →
  posixpath.join base item = base +:+ join_sep base +:+ item.
Proof.
  intros Hb Hv. unfold posixpath.join, join_sep.
  rewrite (valid_name_no_lead _ Hv), Hb. simpl.
  by destruct (Str.ends_with_slash base).
Qed.

Lemma children_valid fs k :
  names_valid fs → Forall (λ n, valid_name n = true) (children fs k).
Proof.
  intros Hv. apply Forall_forall. intros n Hn%elem_of_children.
  specialize (Hv _ Hn). apply Forall_app in Hv as [_ Hv]. by inversion Hv.
Qed.

Lemma subdir_entries_valid s base k :
  names_valid (files s) → Forall (λ n, valid_name n = true) (subdir_entries s base k).
Proof.
  intros Hv. unfold subdir_entries. apply Forall_forall. intros n Hn.
  apply list_elem_of_filter in Hn as [_ Hn].
  pose proof (children_valid _ k Hv) as Hall. rewrite Forall_forall in Hall. auto.
Qed.

Lemma fmap_join_entry base l :
  Str.truthy base = true → Forall (λ n, valid_name n = true) l →
  posixpath.join base <$> l = (λ item, base +:+ join_sep base +:+ item) <$> l.
Proof.
  intros Hb Hl. apply list_fmap_ext. intros i x Hx.
  apply join_entry; [done|]. rewrite Forall_forall in Hl.
  by eapply Hl, list_elem_of_lookup_2.
Qed.

(** What is retained, as a rearrangement of the subdirectory entries. *)
Lemma retained_entries order s base k :
  os.isdir s base = true → resolve s true base = inr k →
  retained order s base ≡ₚ posixpath.join base <$> subdir_entries s base k.
Proof.
  intros Hd Hr. unfold retained, subdir_entries. rewrite Hd, Hr.
  apply fmap_Permutation. by rewrite (enum_perm order).
Qed.










End Lines.

(** ** Where a run stores *)

Section Frame.

#[local] Arguments walk : simpl never.
#[local] Arguments resolve : simpl never.
#[local] Arguments os.mkdir : simpl never.
#[local] Arguments os.isdir : simpl never.
#[local] Arguments os.exists_ : simpl never.













End Frame.

(** ** C1: the output file *)

(** C1, as stated, fails: when the trigger path names the output file, the
    run succeeds and leaves the output file empty although three
    subdirectories and a link to a directory were retained. *)
Lemma C1_output_truncated_by_trigger :
  ¬ (∀ order args s s',
       run order args s = Ok tt s' →
       read_file s' (out_file args) = Some (rendering (subdirs_of order args s))).
Proof.
  intros H.
  specialize (H stored_order clash_args sample_state
                (final (run stored_order clash_args sample_state))).
  assert (run stored_order clash_args sample_state
          = Ok tt (final (run stored_order clash_args sample_state))) as Hrun
    by (vm_compute; reflexivity).
  specialize (H Hrun). vm_compute in H. discriminate H.
Qed.

(** C1 (amended): after a successful run in which the trigger path, if one
    is given, does not lead to the output file itself, the output file holds
    exactly the retained paths in ascending byte-wise lexicographic order,
    each but the last followed by one newline and the last by nothing; it is
    empty when nothing was retained. *)
Theorem C1_output_is_sorted_listing order args s s' :
  run order args s = Ok tt s' →
  (Str.truthy (trigger_file args) = true →
     resolve s' true (trigger_file args) ≠ resolve s' true (out_file args)) →
  let subdirs := subdirs_of order args s in
  let listing := Str.sorted subdirs in
  read_file s' (out_file args) = Some (Str.join nl listing) ∧
  Sorted Str.le listing ∧
  listing ≡ₚ subdirs ∧
  (∀ l x, listing = l ++ [x] →
     Str.join nl listing = String.concat "" ((λ p, p +:+ nl) <$> l) +:+ x) ∧
  (subdirs = [] → read_file s' (out_file args) = Some "").
Proof.
  intros Hrun Hne subdirs listing.
  assert (read_file s' (out_file args) = Some (Str.join nl listing)) as Hread.
  { rewrite run_eq in Hrun. unfold subdirs_of in subdirs.
    destruct (prepare args s) as [[] s2|e s2]; [|done]. simpl in subdirs.
    destruct (deliver_inv _ _ _ _ Hrun) as (k & Hw & Hs'). simpl in Hs'.
    fold subdirs in Hs'.
    destruct (Str.truthy (trigger_file args)) eqn:Ht.
    - destruct Hs' as (k' & Hw' & ->).
      apply read_written_other; [done|done|].
      intros <-. apply Hne; [done|].
      pose proof (evolves_written _ (rendering subdirs) _ _ Hw) as He.
      pose proof (evolves_written _ "" _ _ Hw') as He'.
      destruct Hw as [Hr _], Hw' as [Hr' _].
      rewrite (resolve_evolves _ _ _ _ _ _ He' Hr').
      by rewrite (resolve_evolves _ _ _ _ _ _ He' (resolve_evolves _ _ _ _ _ _ He Hr)).
    - subst s'. by apply read_written. }
  split; [done|]. split; [apply sorted_Sorted|].
  split; [apply sorted_Permutation|]. split.
  - intros l x ->. apply join_snoc.
  - intros Hnil. rewrite Hread. unfold listing. by rewrite Hnil.
Qed.

Lemma C1_output_is_sorted_listing_witness :
  read_file (final (run stored_order sample_args sample_state)) "/out/sub/list.txt"
    = Some (Str.join nl ["/d/a"; "/d/b"; "/d/c"; "/d/ld"]).
Proof.
  refine (proj1 (C1_output_is_sorted_listing stored_order sample_args sample_state
                   (final (run stored_order sample_args sample_state)) _ _)).
  - vm_compute. reflexivity.
  - intros _. vm_compute. discriminate.
Defined.

(** ** C2: what is listed *)

(** C2: the scan returns exactly the paths [join(base_dir, item)] for the
    entries [item] of the target directory whose joined path is a directory.
    Regular files and links to regular files are left out, links to
    directories are kept, and every retained path is the target path joined
    with the name of one of its own entries. *)
Theorem C2_retained_are_immediate_subdirectories order s base_dir :
  let subdirs := retained order s base_dir in
  scan order base_dir s = Ok subdirs (scanned base_dir s) ∧
  (∀ p, p ∈ subdirs ↔
        os.isdir s base_dir = true ∧
        ∃ k item, resolve s true base_dir = inr k ∧
                  is_Some (files s !! (k ++ [item])) ∧
                  p = posixpath.join base_dir item ∧
                  os.isdir s p = true) ∧
  (∀ item c, lstat s (posixpath.join base_dir item) = inr (File c) →
             posixpath.join base_dir item ∉ subdirs) ∧
  (∀ item t c, lstat s (posixpath.join base_dir item) = inr (Link t) →
               stat s (posixpath.join base_dir item) = inr (File c) →
               posixpath.join base_dir item ∉ subdirs) ∧
  (∀ k item t, resolve s true base_dir = inr k →
               is_Some (files s !! (k ++ [item])) →
               os.isdir s base_dir = true →
               lstat s (posixpath.join base_dir item) = inr (Link t) →
               stat s (posixpath.join base_dir item) = inr Dir →
               posixpath.join base_dir item ∈ subdirs) ∧
  (names_valid (files s) →
   ∀ p, p ∈ subdirs →
        ∃ item, p = posixpath.join base_dir item ∧ Str.has_slash item = false).
Proof.
  intros subdirs.
  assert (∀ p, p ∈ subdirs ↔
        os.isdir s base_dir = true ∧
        ∃ k item, resolve s true base_dir = inr k ∧
                  is_Some (files s !! (k ++ [item])) ∧
                  p = posixpath.join base_dir item ∧
                  os.isdir s p = true) as Hiff.
  { intros p. unfold subdirs, retained.
    destruct (os.isdir s base_dir) eqn:Hd.
    - destruct (isdir_resolve _ _ Hd) as (k & Hr & Hn). rewrite Hr.
      rewrite list_elem_of_fmap. split.
      + intros (item & -> & Hin). apply list_elem_of_filter in Hin as [Hdir Hin].
        rewrite (enum_perm order) in Hin. apply elem_of_children in Hin.
        split; [done|]. by exists k, item.
      + intros (_ & k' & item & [= <-] & Hs & -> & Hdir).
        exists item. split; [done|]. apply list_elem_of_filter. split; [done|].
        rewrite (enum_perm order). by apply elem_of_children.
    - split; [by intros ?%elem_of_nil|]. by intros [? _]. }
  split; [by rewrite scan_eq|]. split; [done|].
  assert (∀ p nd, stat s p = inr nd → nd ≠ Dir → p ∉ subdirs) as Hnot.
  { intros p nd Hst Hnd Hin. apply Hiff in Hin as (_ & _ & _ & _ & _ & _ & Hdir).
    unfold os.isdir in Hdir. rewrite Hst in Hdir. by destruct nd. }
  repeat split.
  - intros item c Hl. apply (Hnot _ (File c)); [|done]. by apply lstat_stat.
  - intros item t c _ Hst. by apply (Hnot _ (File c)).
  - intros k item t Hr Hs Hd _ Hst. apply Hiff. split; [done|].
    exists k, item. repeat split; try done. unfold os.isdir. by rewrite Hst.
  - intros Hv p Hin. apply Hiff in Hin as (_ & k & item & _ & Hs & -> & _).
    exists item. split; [done|].
    specialize (Hv _ Hs). rewrite Forall_app, Forall_singleton in Hv.
    destruct Hv as [_ Hv]. unfold valid_name in Hv.
    destruct (Str.has_slash item); [|done].
    by rewrite andb_false_r in Hv.
Qed.

Lemma C2_retained_are_immediate_subdirectories_witness :
  retained stored_order sample_state "/d" = ["/d/ld"; "/d/c"; "/d/b"; "/d/a"] ∧
  ∀ p, p ∈ retained stored_order sample_state "/d" →
       ∃ item, p = posixpath.join "/d" item ∧ Str.has_slash item = false.
Proof.
  split; [vm_compute; reflexivity|].
  refine (proj2 (proj2 (proj2 (proj2 (proj2
            (C2_retained_are_immediate_subdirectories stored_order sample_state "/d"))))) _).
  intros k [nd Hk].
  apply elem_of_list_to_map_2 in Hk.
  repeat (apply elem_of_cons in Hk as [[= -> ->]|Hk];
          [repeat constructor|]).
  by apply elem_of_nil in Hk.
Defined.


(** ** C3: a target that is not a directory *)

(** C3, as stated, fails: a target that does not exist when the program
    starts is made on the way to an output file placed below it, and is then
    listed; the run succeeds and the output file is not empty. *)
Lemma C3_missing_target_made_by_the_run :
  ¬ (∀ order args s s',
       os.isdir s (directory args) = false →
       run order args s = Ok tt s' →
       read_file s' (out_file args) = Some "").
Proof.
  intros H.
  assert (os.isdir sample_state "/gone" = false) as Hnd by (vm_compute; reflexivity).
  assert (run stored_order (mkArgs "/gone" "/gone/sub/list.txt" "/out/done") sample_state
          = Ok tt (final (run stored_order
                            (mkArgs "/gone" "/gone/sub/list.txt" "/out/done")
                            sample_state))) as Hrun by (vm_compute; reflexivity).
  specialize (H stored_order (mkArgs "/gone" "/gone/sub/list.txt" "/out/done")
                sample_state _ Hnd Hrun).
  vm_compute in H. discriminate H.
Qed.

(** C3 (amended): when the target is not a directory at the time it is
    examined, which is after the parent directories have been made, the
    run is the run of an empty listing: nothing is retained and no exception
    arises from the scan; if it ends well, the output file is empty and the
    trigger file, when a path is given for it, is there and empty. *)
Theorem C3_missing_target_is_empty_listing order args s :
  os.isdir (final (prepare args s)) (directory args) = false →
  subdirs_of order args s = [] ∧
  run order args s = (prepare args ;;; deliver args []) s ∧
  ∀ s', run order args s = Ok tt s' →
        read_file s' (out_file args) = Some "" ∧
        (Str.truthy (trigger_file args) = true →
         read_file s' (trigger_file args) = Some "").
Proof.
  intros Hnd.
  assert (subdirs_of order args s = []) as Hnil
    by (unfold subdirs_of, retained; by rewrite Hnd).
  assert (run order args s = (prepare args ;;; deliver args []) s) as Heq.
  { rewrite run_eq. unfold bind. unfold subdirs_of in Hnil.
    destruct (prepare args s) as [[] s2|e s2]; [|done]. simpl in *.
    unfold scanned. by rewrite Hnil, Hnd. }
  split; [done|]. split; [done|].
  intros s' Hrun. rewrite Heq in Hrun. unfold bind in Hrun.
  destruct (prepare args s) as [[] s2|e s2]; [|done].
  destruct (deliver_inv _ _ _ _ Hrun) as (k & Hw & Hs'). simpl in Hs'.
  destruct (Str.truthy (trigger_file args)) eqn:Ht.
  - destruct Hs' as (k' & Hw' & ->). split; [|intros _; by apply read_written].
    destruct (decide (k = k')) as [<-|Hne]; [|by apply read_written_other].
    pose proof (evolves_written _ (rendering []) _ _ Hw) as He.
    pose proof (evolves_written _ "" _ _ Hw') as He'.
    pose proof (writable_not_root _ _ _ Hw) as Hk.
    destruct Hw as [Hr _].
    unfold read_file, stat, stat_with.
    rewrite (resolve_evolves _ _ _ _ _ _ He' (resolve_evolves _ _ _ _ _ _ He Hr)).
    simpl. destruct k; [done|]. simpl. by rewrite lookup_insert_eq.
  - subst s'. split; [|done]. by rewrite read_written.
Qed.

Lemma C3_missing_target_is_empty_listing_witness :
  read_file (final (run stored_order (mkArgs "/gone" "/out/list.txt" "/out/done") sample_state))
            "/out/list.txt" = Some "" ∧
  read_file (final (run stored_order (mkArgs "/gone" "/out/list.txt" "/out/done") sample_state))
            "/out/done" = Some "".
Proof.
  assert (os.isdir (final (prepare (mkArgs "/gone" "/out/list.txt" "/out/done") sample_state))
                   "/gone" = false) as Hnd by (vm_compute; reflexivity).
  destruct (C3_missing_target_is_empty_listing stored_order _ _ Hnd) as (_ & _ & H).
  destruct (H (final (run stored_order (mkArgs "/gone" "/out/list.txt" "/out/done") sample_state)))
    as [H1 H2]; [vm_compute; reflexivity|].
  split; [exact H1|]. apply H2. reflexivity.
Defined.

(** ** C4: determinism and idempotence *)

(** C4, as stated, fails: two file systems with the same subdirectories in
    the target, the same arguments, two successful runs, and yet the output
    file holds the listing after one and nothing after the other, where the
    trigger path is a symbolic link to the output file. *)
Lemma C4_same_subdirectories_different_output :
  ¬ (∀ order1 order2 args s1 s2 s1' s2',
       well_formed s1 → well_formed s2 →
       (∀ p, p ∈ subdirs_of order1 args s1 ↔ p ∈ subdirs_of order2 args s2) →
       run order1 args s1 = Ok tt s1' →
       run order2 args s2 = Ok tt s2' →
       read_file s1' (out_file args) = read_file s2' (out_file args)).
Proof.
  intros H.
  specialize (H stored_order stored_order plain_args sample_state linked_state
                (final (run stored_order plain_args sample_state))
                (final (run stored_order plain_args linked_state))
                sample_well_formed linked_well_formed).
  assert (subdirs_of stored_order plain_args sample_state
          = subdirs_of stored_order plain_args linked_state) as Hsame
    by (vm_compute; reflexivity).
  specialize (H ltac:(by rewrite Hsame) ltac:(vm_compute; reflexivity)
                ltac:(vm_compute; reflexivity)).
  vm_compute in H. discriminate H.
Qed.



(** ** C5: the trigger file *)

(** C5: with a non-empty trigger path, after a successful run the trigger
    file exists and is empty, whatever was listed and whatever the path held
    before; with an empty trigger path the run makes directories only on the
    way to the output file and opens no file but the output file. *)
Theorem C5_trigger_is_empty_file order args s :
  (Str.truthy (trigger_file args) = true →
     ∀ s', run order args s = Ok tt s' →
           read_file s' (trigger_file args) = Some "") ∧
  (trigger_file args = "" →
     ∃ evs, evolves s (final (run order args s)) evs ∧
       Forall (λ ev, match ev with
                     | EvMkdir p _ =>
                         String.prefix p (posixpath.dirname (out_file args)) = true
                     | EvListdir p => p = directory args
                     | EvOpen p _ | EvWrite p _ _ | EvClose p _ => p = out_file args
                     end) evs).
Proof.
  split.
  - intros Ht s' Hrun. rewrite run_eq in Hrun.
    destruct (prepare args s) as [[] s2|e s2]; [|done].
    destruct (deliver_inv _ _ _ _ Hrun) as (k & Hw & Hs'). simpl in Hs'.
    rewrite Ht in Hs'. destruct Hs' as (k' & Hw' & ->).
    by apply read_written.
  - intros Hempty.
    destruct (run_trace order args s) as (dirs & listed & tail & Hev & Hd & Hl & Ht).
    exists (dirs ++ listed ++ tail). split; [done|].
    rewrite !Forall_app. split; [|split].
    + eapply Forall_impl; [done|].
      intros ev (p & k & -> & [Hp|[Hf _]]); [done|by rewrite Hempty in Hf].
    + destruct Hl as [->| ->]; repeat constructor.
    + destruct Ht as [[-> _]|[(k & -> & _)|(k & k' & Hf & _)]];
        [constructor|repeat constructor|by rewrite ?Hempty in Hf].
Qed.

Lemma C5_trigger_is_empty_file_witness :
  read_file (final (run stored_order (mkArgs "/d" "/out/list.txt" "/out/old") sample_state))
            "/out/old" = Some "".
Proof.
  refine (proj1 (C5_trigger_is_empty_file stored_order
                   (mkArgs "/d" "/out/list.txt" "/out/old") sample_state) _ _ _).
  - reflexivity.
  - vm_compute. reflexivity.
Defined.


(** ** C6: the trigger comes last *)



(** ** C7: the parent directory of the output file *)

(** C7 does not hold for an output path without a directory part: the file
    would go to the working directory, which exists, and yet the run ends in
    [FileNotFoundError] before anything is listed or written. *)
Theorem C7_bare_output_name_in_existing_directory :
  os.isdir sample_state "." = true ∧
  posixpath.dirname "list.txt" = "" ∧
  main stored_order
       ["--directory"; "/d"; "--out-file"; "list.txt"; "--trigger-file"; "/out/done"]
       sample_state
    = Raise FileNotFoundError sample_state.
Proof. repeat split; vm_compute; reflexivity. Qed.

(** ** C8: an output path without a directory part *)

(** C8: when the output path has no directory part, [os.makedirs] is called
    on the empty string and raises; the run ends there, with nothing listed
    and nothing written. *)
Theorem C8_bare_output_name_aborts order args s :
  posixpath.dirname (out_file args) = "" →
  os.makedirs (posixpath.dirname (out_file args)) s = Raise FileNotFoundError s ∧
  run order args s = Raise FileNotFoundError s.
Proof.
  intros Hd. unfold run, bind. rewrite Hd. split; reflexivity.
Qed.

Lemma C8_bare_output_name_aborts_witness :
  run stored_order (mkArgs "/d" "list.txt" "/out/done") sample_state
    = Raise FileNotFoundError sample_state.
Proof.
  refine (proj2 (C8_bare_output_name_aborts stored_order
                   (mkArgs "/d" "list.txt" "/out/done") sample_state _)).
  apply dirname_no_slash. reflexivity.
Defined.


(** ** C9: side effects *)

(** C9, as stated, fails: with an output path that leads into the target,
    making the parent directory of the output file gives the target a new
    child. *)
Lemma C9_target_gains_a_child :
  ¬ (∀ order args s kt k,
       resolve s true (directory args) = inr kt →
       (k = kt ∨ ∃ n, k = kt ++ [n]) →
       files (final (run order args s)) !! k = files s !! k).
Proof.
  intros H.
  specialize (H stored_order inward_args sample_state ["d"] ["d"; "new"]).
  assert (resolve sample_state true (directory inward_args) = inr ["d"]) as Hr
    by (vm_compute; reflexivity).
  specialize (H Hr (or_intror (ex_intro _ "new" eq_refl))).
  vm_compute in H. discriminate H.
Qed.



(** ** C10: extra command-line arguments *)

(** C10, as stated, fails: [--help] is none of the three options, yet with
    it appended the program stops before doing anything and writes no file. *)
Lemma C10_extra_argument_with_effect :
  ¬ (∀ order argv extra s p,
       Forall (λ t, t ∉ ["--directory"; "--out-file"; "--trigger-file"]) extra →
       read_file (final (main order (argv ++ extra) s)) p
         = read_file (final (main order argv s)) p).
Proof.
  intros H.
  specialize (H stored_order sample_argv ["--help"] sample_state "/out/list.txt").
  assert (Forall (λ t, t ∉ ["--directory"; "--out-file"; "--trigger-file"]) ["--help"]) as Hx.
  { repeat constructor. intros Hin.
    repeat (apply elem_of_cons in Hin as [?|Hin]; [done|]). by apply elem_of_nil in Hin. }
  specialize (H Hx). vm_compute in H. discriminate H.
Qed.

(** C10 (amended): argument strings that the parser does not recognize,
    inserted anywhere but directly after an option that waits for its value,
    have no effect: the run is the same, down to the state it leaves. *)
Theorem C10_unrecognized_arguments_ignored order pre xs post s :
  Forall (λ t, unrecognized t = true) xs →
  awaits_value pre = false →
  main order (pre ++ xs ++ post) s = main order (pre ++ post) s.
Proof.
  intros Hx Hpre. unfold main.
  pose proof (parse_known_args_extra pre xs post Hx Hpre) as H.
  destruct (argparse.parse_known_args (pre ++ xs ++ post)) as [a r|d o t r|e];
    destruct (argparse.parse_known_args (pre ++ post)) as [a' r'|d' o' t' r'|e'];
    try done; [by subst|by destruct H as (-> & -> & ->)|by subst].
Qed.

Lemma C10_unrecognized_arguments_ignored_witness :
  main stored_order
       (["--directory"; "/d"; "--jobs"; "4"; "extra"; "--verbose=1"]
        ++ ["--out-file"; "/out/list.txt"; "--trigger-file"; "/out/done"; "-x"])
       sample_state
  = main stored_order sample_argv sample_state.
Proof.
  etrans.
  - apply (C10_unrecognized_arguments_ignored stored_order
             ["--directory"; "/d"] ["--jobs"; "4"; "extra"; "--verbose=1"]
             ["--out-file"; "/out/list.txt"; "--trigger-file"; "/out/done"; "-x"]).
    + repeat constructor.
    + reflexivity.
  - apply (C10_unrecognized_arguments_ignored stored_order sample_argv ["-x"] []).
    + repeat constructor.
    + reflexivity.
Defined.

(** * Further properties *)

(** ** Well-formed states are kept *)


(** X1: a run, however it ends, leaves a well-formed state well-formed:
    every name it enters is an entry name (no slash, not empty, not [.] or
    [..]) and every node it stores hangs in a directory. *)
Theorem X1_run_keeps_well_formed order args s :
  well_formed s → well_formed (final (run order args s)).
Proof.
  intros Hwf. rewrite run_eq.
  pose proof (well_formed_prepare args s Hwf) as Hp.
  destruct (prepare args s) as [[] sb|e sb]; [|done]. simpl in Hp.
  apply (well_formed_scanned (directory args)) in Hp.
  unfold deliver, bind.
  set (data := rendering _).
  pose proof (with_open_inv (out_file args) data
                (scanned (directory args) sb) _ eq_refl) as H1.
  destruct (with_open_w_write (out_file args) data _) as [[] s3|e s3];
    [|by subst].
  destruct H1 as (k & Hw & ->).
  pose proof (well_formed_written _ data _ _ Hp Hw) as H3.
  destruct (Str.truthy (trigger_file args)); [|done].
  pose proof (with_open_inv (trigger_file args) ""
                (written (out_file args) data k (scanned (directory args) sb))
                _ eq_refl) as H2.
  destruct (with_open_w_write (trigger_file args) "" _) as [[] s4|e s4];
    [|by subst].
  destruct H2 as (k' & Hw' & ->). by apply well_formed_written.
Qed.

Lemma X1_run_keeps_well_formed_witness :
  well_formed (final (run stored_order sample_args sample_state)).
Proof.
  exact (X1_run_keeps_well_formed stored_order sample_args sample_state
           sample_well_formed).
Defined.

(** ** The lines of the output file *)






(** X4: started in a well-formed state, sorting the joined paths sorts the
    entries by name: the listing is the subdirectory entries in ascending
    order of their names, each joined to the target path. *)
Theorem X4_lines_in_name_order order args s k :
  well_formed s →
  os.isdir (final (prepare args s)) (directory args) = true →
  resolve (final (prepare args s)) true (directory args) = inr k →
  Str.sorted (subdirs_of order args s) =
    posixpath.join (directory args) <$>
      Str.sorted (subdir_entries (final (prepare args s)) (directory args) k).
Proof.
  intros Hwf Hd Hr. unfold subdirs_of.
  apply well_formed_prepare with (args := args) in Hwf as (Hv & _ & _).
  set (sb := final (prepare args s)) in *.
  symmetry. apply sorted_unique.
  - assert (Forall (λ n, valid_name n = true)
                   (Str.sorted (subdir_entries sb (directory args) k))) as Hall.
    { rewrite sorted_Permutation. by apply subdir_entries_valid. }
    rewrite fmap_join_entry; [|by eapply isdir_truthy|done].
    eapply Sorted_fmap; [|apply sorted_Sorted].
    intros a b Hab. unfold Str.le in *. by rewrite !leb_app.
  - rewrite (retained_entries order _ _ _ Hd Hr).
    apply fmap_Permutation, sorted_Permutation.
Qed.

Lemma X4_lines_in_name_order_witness :
  Str.sorted (subdirs_of stored_order sample_args sample_state) =
    posixpath.join "/d" <$> ["a"; "b"; "c"; "ld"].
Proof.
  etrans.
  - apply (X4_lines_in_name_order stored_order sample_args sample_state ["d"]).
    + exact sample_well_formed.
    + vm_compute. reflexivity.
    + vm_compute. reflexivity.
  - vm_compute. reflexivity.
Defined.

(** ** Paths that are there already, and failures *)

Section Present.

Lemma exists_resolve s p :
  os.exists_ s p = true →
  ∃ k nd, resolve s true p = inr k ∧ node_at (files s) k = Some nd.
Proof.
  unfold os.exists_, stat, stat_with.
  destruct (resolve s true p) as [e|k]; [done|].
  destruct (node_at (files s) k) as [nd|] eqn:E; [|done].
  intros _. exists k, nd. by split.
Qed.

Lemma mkdir_present s name :
  os.exists_ s name = true → stable name →
  os.mkdir name s = Raise FileExistsError s.
Proof.
  intros Hex Hst. unfold os.mkdir. unfold stable in Hst. rewrite Hst.
  destruct (exists_resolve _ _ Hex) as (k & nd & Hr & Hn).
  unfold resolve in *. destruct (negb (Str.truthy name)); [done|].
  destruct (walk_nofollow _ _ _ _ _ Hr) as (k' & -> & [nd' ->]); [by rewrite Hn|].
  done.
Qed.

(** [os.makedirs(name, exist_ok=True)] on a name that is there: nothing is
    done, and [FileExistsError] is raised unless it is a directory. *)
Lemma makedirs_present fuel s name :
  os.exists_ s name = true → stable name →
  os.makedirs_rec (S fuel) name s =
    if os.isdir s name then Ok tt s else Raise FileExistsError s.
Proof.
  intros Hex Hst.
  destruct (exists_resolve _ _ Hex) as (k & nd & Hr & _).
  simpl.
  destruct (posixpath.split name) as [head1 tail1] eqn:Hs1.
  assert (Str.truthy head1 = true → os.isdir s head1 = true) as Hd1
    by (intros ?; by eapply isdir_head).
  assert (∃ head tail,
    (if negb (Str.truthy tail1) then posixpath.split head1 else (head1, tail1))
      = (head, tail) ∧ (Str.truthy head = true → os.exists_ s head = true))
    as (head & tail & -> & Hex').
  { destruct (negb (Str.truthy tail1)).
    - destruct (posixpath.split head1) as [h2 t2] eqn:Hs2.
      exists h2, t2. split; [done|]. intros Hh2.
      pose proof (split_head_prefix head1) as Hp. rewrite Hs2 in Hp. simpl in Hp.
      pose proof (prefix_truthy _ _ Hp Hh2) as Hh1.
      destruct (isdir_resolve _ _ (Hd1 Hh1)) as (k1 & Hr1 & _).
      apply isdir_exists. by eapply isdir_head.
    - exists head1, tail1. split; [done|]. intros ?. by apply isdir_exists, Hd1. }
  unfold bind, get, ret.
  destruct (Str.truthy head) eqn:Hh; simpl;
    [destruct (Str.truthy tail); simpl; [rewrite (Hex' eq_refl); simpl|]|];
    rewrite (mkdir_present _ _ Hex Hst); by destruct (os.isdir s name).
Qed.

Lemma open_directory p data s :
  os.isdir s p = true → with_open_w_write p data s = Raise IsADirectoryError s.
Proof.
  intros Hd. destruct (isdir_resolve _ _ Hd) as (k & Hr & Hn).
  unfold with_open_w_write, bind, open_w. by rewrite Hr, Hn.
Qed.

End Present.

(** X5: when [--out-file] names an existing directory the run never ends
    well: once the parent directories are made and the target is listed,
    opening the output raises [IsADirectoryError]; no file is opened and the
    trigger is not created. *)
Theorem X5_output_path_is_a_directory order args s :
  os.isdir s (out_file args) = true →
  run order args s =
    match prepare args s with
    | Ok _ sb => Raise IsADirectoryError (scanned (directory args) sb)
    | Raise e sb => Raise e sb
    end.
Proof.
  intros Hd. rewrite run_eq.
  destruct (prepare_effect args s) as (dirs & Hev & _).
  destruct (prepare args s) as [[] sb|e sb]; [|done]. simpl in Hev.
  unfold deliver, bind. rewrite open_directory; [done|].
  rewrite isdir_scanned. by eapply isdir_evolves.
Qed.

Lemma X5_output_path_is_a_directory_witness :
  run stored_order (mkArgs "/d" "/d/a" "/out/done") sample_state
    = Raise IsADirectoryError
        (scanned "/d" (final (prepare (mkArgs "/d" "/d/a" "/out/done") sample_state))).
Proof.
  etrans.
  - apply (X5_output_path_is_a_directory stored_order
             (mkArgs "/d" "/d/a" "/out/done") sample_state).
    vm_compute. reflexivity.
  - vm_compute. reflexivity.
Defined.

(** X6: when the parent path of the output file names something that is not
    a directory (a regular file, or a link to one), [exist_ok=True] does not
    help: the run raises [FileExistsError] at once, with nothing changed. *)
Theorem X6_parent_path_is_a_file order args s :
  os.exists_ s (posixpath.dirname (out_file args)) = true →
  os.isdir s (posixpath.dirname (out_file args)) = false →
  run order args s = Raise FileExistsError s.
Proof.
  intros Hex Hnd. unfold run, bind, os.makedirs.
  change os.recursion_budget with (S 995).
  by rewrite (makedirs_present _ _ _ Hex (stable_dirname _)), Hnd.
Qed.

Lemma X6_parent_path_is_a_file_witness :
  run stored_order (mkArgs "/d" "/out/old/list.txt" "/out/done") sample_state
    = Raise FileExistsError sample_state.
Proof.
  apply X6_parent_path_is_a_file; vm_compute; reflexivity.
Defined.

(** X7: after a run that ended well, the parent path of the output file is
    a directory, and so is the parent path of the trigger file when a
    trigger path is given. *)
Theorem X7_parents_exist_after_success order args s s' :
  run order args s = Ok tt s' →
  os.isdir s' (posixpath.dirname (out_file args)) = true ∧
  (Str.truthy (trigger_file args) = true →
   os.isdir s' (posixpath.dirname (trigger_file args)) = true).
Proof.
  intros Hrun. rewrite run_eq in Hrun.
  destruct (prepare args s) as [[] sb|e sb] eqn:Hp; [|done].
  destruct (prepare_inv _ _ _ Hp) as [Hdo Hdt].
  destruct (deliver_inv _ _ _ _ Hrun) as (k & Hw & Hs'). simpl in Hs'.
  pose proof (evolves_written _ (rendering (retained order sb (directory args)))
                _ _ Hw) as He.
  assert (os.isdir (written (out_file args)
                      (rendering (retained order sb (directory args))) k
                      (scanned (directory args) sb))
                   (posixpath.dirname (out_file args)) = true) as Ho.
  { eapply isdir_evolves; [exact He|]. destruct Hw as [Hr _]. by eapply isdir_dirname. }
  destruct (Str.truthy (trigger_file args)) eqn:Ht.
  - destruct Hs' as (k' & Hw' & ->).
    pose proof (evolves_written _ "" _ _ Hw') as He'.
    split; [by eapply isdir_evolves|]. intros _.
    eapply isdir_evolves; [exact He'|].
    destruct Hw' as [Hr' _]. eapply isdir_dirname; [by apply Hdt|exact Hr'].
  - by subst s'.
Qed.

Lemma X7_parents_exist_after_success_witness :
  os.isdir (final (run stored_order sample_args sample_state)) "/out/sub" = true ∧
  os.isdir (final (run stored_order sample_args sample_state)) "/out/trig" = true.
Proof.
  destruct (X7_parents_exist_after_success stored_order sample_args sample_state
              (final (run stored_order sample_args sample_state))) as [H1 H2].
  - vm_compute. reflexivity.
  - split; [exact H1|]. apply H2. reflexivity.
Defined.

(** X8: when the parent paths of the output file and of the trigger file are
    directories already, the first phase does nothing and raises nothing: no
    directory is made, and the run is the scan followed by the two writes. *)
Theorem X8_existing_parents_untouched order args s :
  os.isdir s (posixpath.dirname (out_file args)) = true →
  (Str.truthy (trigger_file args) = true →
   os.isdir s (posixpath.dirname (trigger_file args)) = true) →
  prepare args s = Ok tt s ∧
  run order args s =
    deliver args (retained order s (directory args)) (scanned (directory args) s).
Proof.
  intros Ho Ht.
  assert (prepare args s = Ok tt s) as Hp.
  { unfold prepare, bind. rewrite (makedirs_dirname_existing _ _ Ho).
    destruct (Str.truthy (trigger_file args)); [|done].
    by rewrite (makedirs_dirname_existing _ _ (Ht eq_refl)). }
  split; [done|]. by rewrite run_eq, Hp.
Qed.

Lemma X8_existing_parents_untouched_witness :
  prepare (mkArgs "/d" "/out/list.txt" "/out/done") sample_state = Ok tt sample_state.
Proof.
  refine (proj1 (X8_existing_parents_untouched stored_order
                   (mkArgs "/d" "/out/list.txt" "/out/done") sample_state _ _)).
  - vm_compute. reflexivity.
  - intros _. vm_compute. reflexivity.
Defined.

(** ** Required options *)

Section Required.

Import argparse.

Lemma assoc_store k d :
  assoc k option_string_actions = Some (StoreAction d) → k = option_string d.
Proof.
  unfold option_string_actions. simpl.
  repeat match goal with
         | |- context [String.eqb k ?x] =>
             destruct (String.eqb_spec k x) as [->|_];
             [intros H; first [discriminate H|by injection H as <-]|]
         end.
  done.
Qed.

Lemma split_eq_app t o e :
  split_eq t = Some (o, e) → t = o +:+ String "="%char e.
Proof.
  revert o. induction t as [|c t IH]; intros o; [done|]. simpl.
  destruct (Ascii.eqb_spec c "="%char) as [->|_]; [by intros [= <- <-]|].
  destruct (split_eq t) as [[a b]|]; [|done].
  intros [= <- <-]. by rewrite (IH a eq_refl).
Qed.

Lemma shortest_flag_prefix d : String.prefix (shortest_flag d) (option_string d) = true.
Proof. by destruct d. Qed.

Lemma prefix_iff a b : String.prefix a b = true ↔ ∃ r, b = a +:+ r.
Proof.
  split.
  - revert b. induction a as [|x a IH]; intros b; [by exists b|].
    destruct b as [|y b]; [done|]. cbn [String.prefix].
    destruct (ascii_dec x y) as [->|]; [|done].
    intros [r ->]%IH. by exists r.
  - intros [r ->]. apply prefix_app.
Qed.

(** An abbreviation that selects the option of [d] alone goes at least as
    far as its first letter. *)
Lemma abbreviation_long_enough d p :
  String.prefix p (option_string d) = true →
  String.prefix p "--help" = false →
  String.prefix (shortest_flag d) p = true.
Proof.
  intros [r Hr]%prefix_iff Hh. apply prefix_iff.
  destruct p as [|a [|b [|c p]]].
  - by rewrite prefix_nil in Hh.
  - destruct d; injection Hr as <- _; by vm_compute in Hh.
  - destruct d; injection Hr as <- <- _; by vm_compute in Hh.
  - destruct d; injection Hr as <- <- <- _; by exists p.
Qed.

Lemma get_option_tuples_store t d o e :
  nth_is_dash 0 t = true →
  get_option_tuples t = [(StoreAction d, o, e)] →
  String.prefix (shortest_flag d) t = true.
Proof.
  intros H0. unfold get_option_tuples. rewrite H0.
  destruct (nth_is_dash 1 t) eqn:H1; cbn [andb].
  - (* two dashes: abbreviations *)
    assert (∃ p ex, match split_eq t with
                    | Some (p, e) => (p, Some e)
                    | None => (t, None)
                    end = (p, ex) ∧ String.prefix p t = true) as (p & ex & -> & Hp).
    { destruct (split_eq t) as [[p' e']|] eqn:Es.
      - exists p', (Some e'). split; [done|].
        rewrite (split_eq_app _ _ _ Es). apply prefix_app.
      - exists t, None. split; [done|apply prefix_refl]. }
    unfold option_string_actions. cbn -[String.prefix].
    destruct (String.prefix p "-h") eqn:E1;
      destruct (String.prefix p "--help") eqn:E2;
      destruct (String.prefix p "--directory") eqn:E3;
      destruct (String.prefix p "--out-file") eqn:E4;
      destruct (String.prefix p "--trigger-file") eqn:E5;
      cbn -[String.prefix]; intros H; try discriminate H;
      simplify_eq;
      (eapply prefix_trans; [|exact Hp]);
      by apply abbreviation_long_enough.
  - (* one dash: only [-h] *)
    destruct t as [|c0 [|c1 t]]; [done| |].
    + unfold nth_is_dash in H0. simpl in H0. apply Ascii.eqb_eq in H0 as ->.
      intros H. vm_compute in H. discriminate H.
    + unfold nth_is_dash in H0, H1. simpl in H0, H1.
      apply Ascii.eqb_eq in H0 as ->.
      assert (substring 0 2 (String dash (String c1 t)) = String dash (String c1 ""))
        as -> by (by destruct t).
      assert (∀ o', (2 < String.length o')%nat →
                    String.eqb o' (String dash (String c1 "")) = false) as F1.
      { intros o' Hlen. apply String.eqb_neq. intros ->. simpl in Hlen. lia. }
      assert (∀ o', String.prefix (String dash (String c1 t))
                                  (String dash (String dash o')) = false) as F2.
      { intros o'. destruct (String.prefix _ _) eqn:E; [|done].
        apply prefix_iff in E as [r Hr]. injection Hr as Hc _. subst c1.
        by vm_compute in H1. }
      unfold option_string_actions.
      cbn -[String.prefix String.eqb String.length].
      rewrite (F1 "--help"), (F1 "--directory"), (F1 "--out-file"),
        (F1 "--trigger-file") by (simpl; lia).
      rewrite !F2.
      destruct (String.eqb "-h" _); [intros H; discriminate H|].
      destruct (String.prefix _ "-h"); intros H; discriminate H.
Qed.

Lemma parse_optional_store t d o e :
  parse_optional t = OptionTuple (Some (StoreAction d)) o e →
  String.prefix (shortest_flag d) t = true.
Proof.
  unfold parse_optional.
  destruct (Str.truthy t); [|done]. cbn [negb].
  destruct (nth_is_dash 0 t) eqn:H0; [|done]. cbn [negb].
  destruct (assoc t option_string_actions) as [a|] eqn:Ea.
  { intros [= -> <- <-]. apply assoc_store in Ea as ->.
    apply shortest_flag_prefix. }
  destruct (String.length t =? 1)%nat; [done|].
  destruct (split_eq t) as [[o' e']|] eqn:Es.
  - destruct (assoc o' option_string_actions) as [a|] eqn:Eo.
    + intros [= -> <- <-]. apply assoc_store in Eo as ->.
      rewrite (split_eq_app _ _ _ Es).
      eapply prefix_trans; [apply shortest_flag_prefix|apply prefix_app].
    + destruct (get_option_tuples t) as [|[[a o''] e''] [|? ?]] eqn:Eg; [|  |done].
      * by repeat case_match.
      * intros [= -> <- <-]. by eapply get_option_tuples_store.
  - destruct (get_option_tuples t) as [|[[a o''] e''] [|? ?]] eqn:Eg; [|  |done].
    + by repeat case_match.
    + intros [= -> <- <-]. by eapply get_option_tuples_store.
Qed.

Variable d : dest.

Lemma classify_never_stores after_marker argv toks :
  Forall (λ t, String.prefix (shortest_flag d) t = false) argv →
  classify after_marker argv = inr toks →
  Forall (λ tok, ¬ stores d tok.2) toks.
Proof.
  intros Hargv. revert after_marker toks.
  induction Hargv as [|t argv Ht _ IH]; intros am toks; [by intros [= <-]|].
  cbn [classify]. destruct am.
  { destruct (classify true argv) as [|l] eqn:Ec; [done|].
    intros [= <-]. constructor; [by intros []|by eapply IH]. }
  destruct (String.eqb t "--").
  { destruct (classify true argv) as [|l] eqn:Ec; [done|].
    intros [= <-]. constructor; [by intros []|by eapply IH]. }
  destruct (parse_optional t) as [|a o e|] eqn:Ep; [| |done].
  - destruct (classify false argv) as [|l] eqn:Ec; [done|].
    intros [= <-]. constructor; [by intros []|by eapply IH].
  - destruct (classify false argv) as [|l] eqn:Ec; [done|].
    intros [= <-]. constructor; [|by eapply IH].
    intros Hs. cbn in Hs. destruct a as [[|d']|]; [done| |done]. subst d'.
    apply parse_optional_store in Ep. congruence.
Qed.

Lemma stored_store d' v ns : d' ≠ d → stored d (store d' v ns) = stored d ns.
Proof. by destruct d, d'. Qed.

Lemma consume_unset sc tok :
  unset d sc → ¬ stores d tok.2 → unset d (consume sc tok).
Proof.
  intros [Hns Hcur] Hpat. destruct tok as [arg pat]. cbn in Hpat.
  unfold consume. destruct (sc_cursor sc) as [|d'|e] eqn:Ec.
  - destruct pat as [| |[[|d']|] o [e|]]; cbn;
      try (split; [exact Hns|done]).
    + by repeat case_match.
    + split; [|done]. cbn. rewrite stored_store; [done|]. intros ->. by apply Hpat.
    + split; [done|]. cbn. intros [= ->]. by apply Hpat.
  - destruct pat; cbn; try (split; [exact Hns|done]).
    split; [|done]. cbn. rewrite stored_store; [done|]. by intros ->.
  - split; [done|]. by rewrite Ec.
Qed.

Lemma foldl_consume_unset toks sc :
  unset d sc → Forall (λ tok, ¬ stores d tok.2) toks →
  unset d (foldl consume sc toks).
Proof.
  intros Hsc Htoks. revert sc Hsc.
  induction Htoks as [|tok toks Htok _ IH]; intros sc Hsc; [done|].
  cbn. apply IH. by apply consume_unset.
Qed.

End Required.

(** X10: each of the three options is required.  When no argument string
    begins with the shortest accepted spelling of one of them ([--d], [--o],
    [--t]), the parser ends the program, and the state is as it was: no
    directory is made, nothing is listed and no file is opened. *)
Theorem X10_every_option_is_required d order argv s :
  Forall (λ t, String.prefix (shortest_flag d) t = false) argv →
  ∃ e, argparse.parse_known_args argv = argparse.Exits e ∧
       main order argv s = Raise e s.
Proof.
  intros Hargv.
  assert (∃ e, argparse.parse_known_args argv = argparse.Exits e) as [e He].
  { unfold argparse.parse_known_args.
    destruct (argparse.classify false argv) as [e|toks] eqn:Ec; [by exists e|].
    pose proof (classify_never_stores d _ _ _ Hargv Ec) as Htoks.
    destruct (foldl_consume_unset d toks
                (argparse.mkScanner argparse.Idle
                   (argparse.mkPartial None None None) [])) as [Hns Hcur];
      [by split; [destruct d|]|done|].
    destruct (argparse.sc_cursor _) as [|d'|e]; [|by eexists|by eexists].
    destruct (argparse.sc_namespace _) as [[[a|]|] [[b|]|] [[c|]|]];
      try (by eexists); by destruct d. }
  exists e. split; [done|]. unfold main. by rewrite He.
Qed.

Lemma X10_every_option_is_required_witness :
  ∃ e, argparse.parse_known_args ["--directory"; "/d"; "--out-file"; "/out/list.txt"]
         = argparse.Exits e ∧
       main stored_order ["--directory"; "/d"; "--out-file"; "/out/list.txt"] sample_state
         = Raise e sample_state.
Proof.
  apply (X10_every_option_is_required argparse.TriggerFile).
  repeat constructor.
Defined.


(** ** Command lines that are accepted *)

Section Accepted.

Import argparse.

Variable args : namespace.

Lemma prefix_in_prefixes p s : String.prefix p s = true → p ∈ prefixes s.
Proof.
  revert p. induction s as [|c s IH]; intros [|x p]; cbn [String.prefix prefixes].
  - intros _. apply elem_of_cons. by left.
  - done.
  - intros _. apply elem_of_cons. by left.
  - destruct (ascii_dec x c) as [->|_]; [|done].
    intros Hp. apply elem_of_cons. right. apply list_elem_of_fmap_2. by apply IH.
Qed.

(** Every abbreviation from the shortest accepted one up selects its
    option. *)
Lemma parse_optional_spelling d p :
  String.prefix (shortest_flag d) p = true →
  String.prefix p (option_string d) = true →
  parse_optional p = OptionTuple (Some (StoreAction d)) (option_string d) None.
Proof.
  intros Hs Hp%prefix_in_prefixes.
  destruct d; vm_compute prefixes in Hp;
    repeat (apply elem_of_cons in Hp as [->|Hp];
            [first [discriminate Hs|reflexivity]|]);
    by apply elem_of_nil in Hp.
Qed.

Lemma classify_option d p rest :
  String.prefix (shortest_flag d) p = true →
  String.prefix p (option_string d) = true →
  classify false (p :: rest) =
    match classify false rest with
    | inr l => inr ((p, PatO (Some (StoreAction d)) (option_string d) None) :: l)
    | inl e => inl e
    end.
Proof.
  intros Hs Hp. cbn [classify].
  destruct (String.eqb_spec p "--") as [->|_]; [by destruct d|].
  by rewrite (parse_optional_spelling _ _ Hs Hp).
Qed.

Lemma classify_value v rest :
  nth_is_dash 0 v = false →
  classify false (v :: rest) =
    match classify false rest with
    | inr l => inr ((v, PatA) :: l)
    | inl e => inl e
    end.
Proof.
  intros Hv. cbn [classify].
  destruct (String.eqb_spec v "--") as [->|_]; [done|].
  unfold parse_optional. destruct (Str.truthy v); [|done].
  by rewrite Hv.
Qed.


Lemma classify_spaced flag ds :
  spelling flag →
  (∀ d, nth_is_dash 0 (value_of args d) = false) →
  classify false (spaced flag args ds) =
    inr (ds ≫= λ d, [(flag d,
                       PatO (Some (StoreAction d)) (option_string d) None);
                      (value_of args d, PatA)]).
Proof.
  intros Hf Hv. induction ds as [|d ds IH]; [done|].
  unfold spaced in *. cbn [mbind list_bind app] in *.
  destruct (Hf d) as [Hs Hp].
  rewrite (classify_option d _ _ Hs Hp), (classify_value _ _ (Hv d)).
  by rewrite IH.
Qed.


Lemma get_values_text v : v ≠ "--" → get_values v = Text v.
Proof. unfold get_values. by destruct (String.eqb_spec v "--"). Qed.

Lemma no_dash_not_marker v : nth_is_dash 0 v = false → v ≠ "--".
Proof. by intros Hv ->. Qed.

Hypothesis values_not_marker : ∀ d, value_of args d ≠ "--".

Lemma consume_spaced flag ds ns ex :
  foldl consume (mkScanner Idle ns ex)
    (ds ≫= λ d, [(flag d,
                   PatO (Some (StoreAction d)) (option_string d) None);
                  (value_of args d, PatA)])
    = mkScanner Idle (stored_in_order args ds ns) ex.
Proof.
  revert ns. induction ds as [|d ds IH]; intros ns; [done|].
  etrans; [|exact (IH (store d (Text (value_of args d)) ns))].
  cbn [mbind list_bind app foldl]. do 2 f_equal.
  unfold consume. cbn -[get_values].
  by rewrite (get_values_text _ (values_not_marker d)).
Qed.


(** Whatever the order, once each option was met the namespace is whole. *)
Lemma stored_in_any_order ds :
  ds ≡ₚ [Directory; OutFile; TriggerFile] →
  stored_in_order args ds (mkPartial None None None)
    = mkPartial (Some (Text (directory args))) (Some (Text (out_file args)))
                (Some (Text (trigger_file args))).
Proof.
  intros Hds. symmetry in Hds. apply permutations_Permutation in Hds.
  vm_compute permutations in Hds.
  repeat (apply elem_of_cons in Hds as [->|Hds]; [done|]).
  by apply elem_of_nil in Hds.
Qed.

End Accepted.

(** X11: the three options may come in any order, and each may be spelled
    in full or abbreviated down to [--d], [--o] and [--t].  When each is
    followed by its value as an argument string of its own, and no value
    begins with a dash, the parser yields exactly these values, leaves no
    argument string over, and the run is the run on them. *)
Theorem X11_options_in_any_order order flag args ds s :
  ds ≡ₚ [argparse.Directory; argparse.OutFile; argparse.TriggerFile] →
  spelling flag →
  (∀ d, argparse.nth_is_dash 0 (value_of args d) = false) →
  argparse.parse_known_args (spaced flag args ds) = argparse.Parsed args [] ∧
  main order (spaced flag args ds) s = run order args s.
Proof.
  intros Hds Hf Hv.
  assert (argparse.parse_known_args (spaced flag args ds) = argparse.Parsed args [])
    as Hp.
  { unfold argparse.parse_known_args.
    rewrite (classify_spaced _ _ _ Hf Hv), consume_spaced
      by (intros d; apply no_dash_not_marker, Hv).
    cbn [argparse.sc_cursor argparse.sc_namespace argparse.sc_extras].
    rewrite (stored_in_any_order _ _ Hds). by destruct args. }
  split; [done|]. unfold main. by rewrite Hp.
Qed.

Lemma X11_options_in_any_order_witness :
  argparse.parse_known_args
    ["--t"; "/out/trig/done"; "--directory"; "/d"; "--out"; "/out/sub/list.txt"]
    = argparse.Parsed sample_args [].
Proof.
  refine (proj1 (X11_options_in_any_order stored_order
                   (λ d, match d with
                         | argparse.Directory => "--directory"
                         | argparse.OutFile => "--out"
                         | argparse.TriggerFile => "--t"
                         end)
                   sample_args
                   [argparse.TriggerFile; argparse.Directory; argparse.OutFile]
                   sample_state _ _ _)).
  - apply permutations_Permutation. vm_compute.
    repeat first [by left | right].
  - by intros [].
  - by intros [].
Defined.


